(** * Durable job-execution pipeline: task store, activity, workflow, API

    A shallow embedding of the quantum task service:
    - [app/core/models.py]         the [Task] row and its [TaskStatus];
    - [app/quantum/execution.py]   [parse_qasm3], [execute_circuit], [NUM_SHOTS];
    - [app/temporal/activities.py] [execute_quantum_circuit_activity];
    - [app/temporal/workflows.py]  [QuantumCircuitWorkflow.run] and its retry policy;
    - [app/temporal/client.py]     [get_temporal_client];
    - [app/api/tasks.py]           [create_task], [get_task], [list_tasks], [delete_task].

    The database is a finite map from primary key to row.  Python
    exceptions are values of a sum type.  The collaborators that live
    outside the repository (the qiskit parser and simulator, the clock,
    the UUID generator, the orchestration backend's reachability) are
    supplied per call by an environment record, so every function below
    is total and runs on concrete inputs. *)

From Stdlib Require Import ZArith NArith Ascii String List.
From Stdlib Require Import HexadecimalString HexadecimalN.
From stdpp Require Import gmap strings list sorting.

Local Open Scope string_scope.
Local Open Scope Z_scope.

(** ** app/core/models.py *)

Inductive TaskStatus := PENDING | COMPLETED | FAILED.

#[global] Instance TaskStatus_eq_dec : EqDecision TaskStatus.
Proof. solve_decision. Defined.

(** A row of table [tasks].  The primary key is a 128-bit UUID, kept as
    its integer value; [result] is the nullable JSON column holding the
    measurement counts; timestamps are integers (microseconds). *)
Module Task.
Record t := mk {
  id : N;
  status : TaskStatus;
  result : option (gmap string Z);
  created_at : Z;
  updated_at : Z
}.

#[global] Instance eq_dec : EqDecision t.
Proof. solve_decision. Defined.

(** [Task(status=TaskStatus.PENDING)] once flushed: the column
    defaults fill [id], [created_at] and [updated_at]; [result] is
    NULL. *)
Definition new (uuid4 : N) (utcnow : Z) : t :=
  mk uuid4 PENDING None utcnow utcnow.

(** [task.status = s] *)
Definition set_status (s : TaskStatus) (r : t) : t :=
  mk (id r) s (result r) (created_at r) (updated_at r).

(** [task.result = c] *)
Definition set_result (c : gmap string Z) (r : t) : t :=
  mk (id r) (status r) (Some c) (created_at r) (updated_at r).

(** [onupdate]: an UPDATE of the row sets [updated_at] to the clock. *)
Definition touch (utcnow : Z) (r : t) : t :=
  mk (id r) (status r) (result r) (created_at r) utcnow.
End Task.

(** The table: at most one row per primary key. *)
Abbreviation Store := (gmap N Task.t).

(** [db.commit()] after attribute assignments on a loaded row.  The
    unit of work emits an UPDATE only when some column value differs
    from the loaded one, and [onupdate] then refreshes [updated_at]. *)
Definition commit_update (utcnow : Z) (loaded assigned : Task.t) : Task.t :=
  if decide (loaded = assigned) then loaded else Task.touch utcnow assigned.

(** ** Python exceptions *)

Inductive PyExc := ValueError | RuntimeError | RPCError | ModuleNotFoundError.

#[global] Instance PyExc_eq_dec : EqDecision PyExc.
Proof. solve_decision. Defined.

(** [type(e).__name__], the name the orchestrator matches against
    [non_retryable_error_types]. *)
Definition exc_type_name (e : PyExc) : string :=
  match e with
  | ValueError => "ValueError"
  | RuntimeError => "RuntimeError"
  | RPCError => "RPCError"
  | ModuleNotFoundError => "ModuleNotFoundError"
  end.

(** ** app/quantum/execution.py *)

Definition NUM_SHOTS : Z := 1024.


(** ASCII part of [str.isspace]. *)
Definition isspace (c : ascii) : bool :=
  let n := nat_of_ascii c in
  ((9 <=? n) && (n <=? 13) || (28 <=? n) && (n <=? 32))%nat.

(** [not s or not s.strip()] *)
Definition is_blank (s : string) : bool :=
  forallb isspace (list_ascii_of_string s).

Section Execution.
Context {Circuit : Type}.

(** What one attempt gets from outside the repository.
    - [utcnow]: the clock read by [onupdate];
    - [qasm3_loads]: the [try] block of [parse_qasm3] (include
      stripping, gate prelude, [qiskit.qasm3.loads]); [None] stands
      for any exception raised inside it;
    - [aer_import_raises]: the exception that [from
      qiskit.providers.aer import AerSimulator], the first statement
      of [execute_circuit], raises, if any; it stands before the
      [try];
    - [simulator_run c shots]: [AerSimulator().run(c, shots=shots)
      .result().get_counts(c)], the [try] block of
      [execute_circuit]; [None] stands for any exception raised
      inside it.
    The simulator samples, so two attempts may see different
    environments. *)
Record AttemptEnv := {
  utcnow : Z;
  qasm3_loads : string → option Circuit;
  aer_import_raises : option PyExc;
  simulator_run : Circuit → Z → option (gmap string Z)
}.

Definition parse_qasm3 (env : AttemptEnv) (qasm3_string : string)
  : PyExc + Circuit :=
  if is_blank qasm3_string then inl ValueError
  else match qasm3_loads env qasm3_string with
       | Some circuit => inr circuit
       | None => inl ValueError
       end.

Definition execute_circuit (env : AttemptEnv) (circuit : Circuit)
  : PyExc + gmap string Z :=
  match aer_import_raises env with
  | Some e => inl e
  | None =>
    match simulator_run env circuit NUM_SHOTS with
    | Some counts => inr counts
    | None => inl RuntimeError
    end
  end.

End Execution.

Arguments AttemptEnv : clear implicits.

(** ** app/temporal/activities.py *)

Section Activities.
Context {Circuit : Type}.
(** [uuid.UUID(s)]: [None] when the constructor raises. *)
Variable UUID : string → option N.

(** The [try] block: load the row, parse, execute, write COMPLETED
    with the counts, commit. *)
Definition activity_body (env : AttemptEnv Circuit)
    (task_id qasm3_string : string) (db : Store)
  : (PyExc + gmap string Z) * Store :=
  match UUID task_id with
  | None => (inl ValueError, db)
  | Some task_uuid =>
    match db !! task_uuid with
    | None => (inl ValueError, db)
    | Some task =>
      match parse_qasm3 env qasm3_string with
      | inl e => (inl e, db)
      | inr circuit =>
        match execute_circuit env circuit with
        | inl e => (inl e, db)
        | inr counts =>
          let task' := Task.set_result counts (Task.set_status COMPLETED task) in
          (inr counts, <[task_uuid := commit_update (utcnow env) task task']> db)
        end
      end
    end
  end.

(** What the [except] block's own [try] did. *)
Inductive HandlerOutcome :=
| MarkedFailed   (* row found, status written, warning logged *)
| RowMissing     (* [if task:] false, nothing written, nothing logged *)
| HandlerError.  (* an exception inside the inner [try], caught and logged *)

(** The [except Exception as e] block up to the final [raise]:
    re-query the row in a new session and, when it is there, write
    FAILED and commit. *)
Definition mark_failed (env : AttemptEnv Circuit) (task_id : string)
    (db : Store) : HandlerOutcome * Store :=
  match UUID task_id with
  | None => (HandlerError, db)
  | Some task_uuid =>
    match db !! task_uuid with
    | Some task =>
      (MarkedFailed,
       <[task_uuid := commit_update (utcnow env) task (Task.set_status FAILED task)]> db)
    | None => (RowMissing, db)
    end
  end.

(** One attempt.  [inl e] is the exception re-raised by the bare
    [raise]; [inr counts] is the returned value. *)
Definition execute_quantum_circuit_activity (env : AttemptEnv Circuit)
    (task_id qasm3_string : string) (db : Store)
  : (PyExc + gmap string Z) * Store :=
  match activity_body env task_id qasm3_string db with
  | (inr counts, db') => (inr counts, db')
  | (inl e, db') => (inl e, snd (mark_failed env task_id db'))
  end.
End Activities.


(** ** The orchestration backend, as far as the repository drives it *)

(** The retry policy fields the retry decision reads.  The timing
    fields ([initial_interval], [backoff_coefficient]) schedule
    attempts in real time and have no counterpart here; what
    [start_to_close_timeout] adds, an attempt counted as failed
    whatever it did, is [workflow_attempt_unreported] below. *)
Record RetryPolicy := {
  maximum_attempts : nat;
  non_retryable_error_types : list string
}.

Inductive RunStatus := RUNNING | RUN_COMPLETED | RUN_FAILED | RUN_CANCELED.

#[global] Instance RunStatus_eq_dec : EqDecision RunStatus.
Proof. solve_decision. Defined.

(** One workflow execution on the server: the input dictionary it was
    started with, the number of activity attempts made so far, and
    whether it is still open. *)
Record WorkflowRun := {
  wf_task_id : string;
  wf_qasm3_string : string;
  wf_attempts : nat;
  wf_status : RunStatus
}.

(** The whole system: the table, the server's executions keyed by
    workflow id, and the API process's cached [_client]. *)
Record System := {
  db : Store;
  temporal : gmap string WorkflowRun;
  _client : bool
}.

Definition init : System :=
  {| db := ∅; temporal := ∅; _client := false |}.

(** Calls to collaborators, in the order a handler makes them. *)
Inductive Call :=
| DbInsert (task_uuid : N)
| DbDelete (task_uuid : N)
| GetTemporalClient
| StartWorkflow (workflow_id : string)
| CancelWorkflow (workflow_id : string).

(** ** app/temporal/client.py *)

(** [get_temporal_client()]: the cached client when there is one,
    otherwise [Client.connect], which either caches a client or makes
    the function raise [RuntimeError]. *)
Definition get_temporal_client (connect_ok : bool) (cached : bool)
  : (PyExc + unit) * bool :=
  if cached then (inr (), true)
  else if connect_ok then (inr (), true)
  else (inl RuntimeError, false).

(** ** app/temporal/workflows.py *)

(** [RetryPolicy(maximum_attempts=3, initial_interval=..., backoff_coefficient=2.0)];
    [non_retryable_error_types] is left at its default, no names. *)
Definition workflow_retry_policy : RetryPolicy :=
  {| maximum_attempts := 3; non_retryable_error_types := [] |}.

(** The server's retry decision after attempt number [attempt] failed
    with [e]: retry unless the error's type name is listed as
    non-retryable or the attempt cap is reached ([0] means no cap). *)
Definition should_retry (policy : RetryPolicy) (attempt : nat) (e : PyExc) : bool :=
  negb (bool_decide (exc_type_name e ∈ non_retryable_error_types policy))
  && ((maximum_attempts policy =? 0)%nat || (attempt <? maximum_attempts policy)%nat).

Section Workflows.
Context {Circuit : Type}.
Variable UUID : string → option N.

(** One scheduling step of [QuantumCircuitWorkflow.run] for the
    execution [workflow_id], the attempt's outcome reaching the
    server: if the execution is open, run one attempt of the activity
    on the table, then either close the execution (success, or failure
    with no retry left) or leave it open for the next attempt.  A
    closed or unknown execution schedules nothing. *)
Definition workflow_attempt (env : AttemptEnv Circuit) (workflow_id : string)
    (s : System) : System :=
  match temporal s !! workflow_id with
  | Some run =>
    match wf_status run with
    | RUNNING =>
      let '(outcome, db') :=
        execute_quantum_circuit_activity UUID env
          (wf_task_id run) (wf_qasm3_string run) (db s) in
      let attempt := S (wf_attempts run) in
      let status' :=
        match outcome with
        | inr _ => RUN_COMPLETED
        | inl e => if should_retry workflow_retry_policy attempt e
                   then RUNNING else RUN_FAILED
        end in
      {| db := db';
         temporal := <[workflow_id :=
                        {| wf_task_id := wf_task_id run;
                           wf_qasm3_string := wf_qasm3_string run;
                           wf_attempts := attempt;
                           wf_status := status' |}]> (temporal s);
         _client := _client s |}
    | _ => s
    end
  | None => s
  end.

(** An attempt whose outcome does not reach the server.
    [execute_activity] is called with [start_to_close_timeout]: when
    the worker has not reported by then (it is slow, or it stops
    between the activity's commit and the report) the server counts
    the attempt as failed by time-out, whatever the activity did to
    the table, and applies the retry policy as for any other failure.
    Activities are delivered at least once. *)
Definition workflow_attempt_unreported (env : AttemptEnv Circuit)
    (workflow_id : string) (s : System) : System :=
  match temporal s !! workflow_id with
  | Some run =>
    match wf_status run with
    | RUNNING =>
      let '(_, db') :=
        execute_quantum_circuit_activity UUID env
          (wf_task_id run) (wf_qasm3_string run) (db s) in
      let attempt := S (wf_attempts run) in
      let status' :=
        if ((maximum_attempts workflow_retry_policy =? 0)%nat
            || (attempt <? maximum_attempts workflow_retry_policy)%nat)
        then RUNNING else RUN_FAILED in
      {| db := db';
         temporal := <[workflow_id :=
                        {| wf_task_id := wf_task_id run;
                           wf_qasm3_string := wf_qasm3_string run;
                           wf_attempts := attempt;
                           wf_status := status' |}]> (temporal s);
         _client := _client s |}
    | _ => s
    end
  | None => s
  end.

(** The execution driven to its end: attempts are made one after the
    other, each with the environment of its own number, until the
    execution closes.  [fuel] bounds the number of scheduling steps. *)
Fixpoint run_workflow (fuel : nat) (envs : nat → AttemptEnv Circuit)
    (workflow_id : string) (s : System) : System :=
  match fuel with
  | O => s
  | S fuel' =>
    match temporal s !! workflow_id with
    | Some run =>
      match wf_status run with
      | RUNNING =>
        run_workflow fuel' envs workflow_id
          (workflow_attempt (envs (S (wf_attempts run))) workflow_id s)
      | _ => s
      end
    | None => s
    end
  end.
End Workflows.

(** ** app/api/tasks.py *)

Inductive HttpResponse (A : Type) :=
| Response (status_code : Z) (body : A)
| HTTPException (status_code : Z) (detail : string).
Arguments Response {A}.
Arguments HTTPException {A}.

(** [TaskResponse] and [TaskDeleteResponse] *)
Record TaskResponse := { task_id : N; message : string }.

(** [TaskStatusResponse] *)
Record TaskStatusResponse := {
  tsr_status : TaskStatus;
  tsr_result : option (gmap string Z);
  tsr_message : option string
}.

(** [TaskListItem] *)
Record TaskListItem := {
  item_id : N;
  item_status : TaskStatus;
  item_created_at : Z;
  item_updated_at : Z
}.

(** [TaskListResponse] *)
Record TaskListResponse := {
  tasks : list TaskListItem;
  total : nat;
  limit : Z;
  offset : Z
}.

(** What a request handler gets from outside the repository:
    the value [uuid.uuid4()] returns for the new row, the clock,
    whether [Client.connect] succeeds, and whether the server accepts
    the RPC the handler sends. *)
Record ApiEnv := {
  uuid4 : N;
  api_utcnow : Z;
  connect_ok : bool;
  rpc_ok : bool
}.

Section Api.
(** [str(u)] for a UUID [u]. *)
Variable uuid_str : N → string.

(** [client.start_workflow(QuantumCircuitWorkflow.run, {...}, id=workflow_id, ...)]:
    raises when the RPC fails or an execution with that id is open;
    otherwise the server records a new open execution. *)
Definition start_workflow (rpc_ok : bool) (workflow_id task_id qasm3_string : string)
    (server : gmap string WorkflowRun) : (PyExc + unit) * gmap string WorkflowRun :=
  let open := match server !! workflow_id with
              | Some run => bool_decide (wf_status run = RUNNING)
              | None => false
              end in
  if negb rpc_ok || open then (inl RPCError, server)
  else (inr (),
        <[workflow_id := {| wf_task_id := task_id;
                            wf_qasm3_string := qasm3_string;
                            wf_attempts := 0;
                            wf_status := RUNNING |}]> server).

(** [handle.cancel()]: raises when the RPC fails or no open execution
    has that id; otherwise the server closes the execution as
    cancelled, so no further attempt is scheduled.  Attempts are
    atomic steps of the model, so there is no attempt in flight to
    interrupt. *)
Definition cancel_workflow (rpc_ok : bool) (workflow_id : string)
    (server : gmap string WorkflowRun) : (PyExc + unit) * gmap string WorkflowRun :=
  match server !! workflow_id with
  | Some run =>
    if rpc_ok && bool_decide (wf_status run = RUNNING)
    then (inr (),
          <[workflow_id := {| wf_task_id := wf_task_id run;
                              wf_qasm3_string := wf_qasm3_string run;
                              wf_attempts := wf_attempts run;
                              wf_status := RUN_CANCELED |}]> server)
    else (inl RPCError, server)
  | None => (inl RPCError, server)
  end.

(** The inner [try] of [create_task]: obtain the client, then start
    the workflow under the row's id.  The first component is [inl]
    when either call raised. *)
Definition start_run (env : ApiEnv) (task_uuid : N) (qc : string) (s : System)
  : (PyExc + unit) * list Call * gmap string WorkflowRun * bool :=
  match get_temporal_client (connect_ok env) (_client s) with
  | (inl e, client') => (inl e, [GetTemporalClient], temporal s, client')
  | (inr _, client') =>
    let workflow_id := uuid_str task_uuid in
    let '(started, server') :=
      start_workflow (rpc_ok env) workflow_id (uuid_str task_uuid) qc (temporal s) in
    (started, [GetTemporalClient; StartWorkflow workflow_id], server', client')
  end.

(** [POST /tasks].  The row is inserted and committed first; a primary
    key collision makes the commit raise, which the outer [except]
    turns into a rollback and a 500 (its detail also carries the
    exception's text, which is left out here).  Starting the workflow
    sits in an inner [try] whose [except] only logs, so its outcome is
    dropped. *)
Definition create_task (env : ApiEnv) (qc : string) (s : System)
  : HttpResponse TaskResponse * list Call * System :=
  let task := Task.new (uuid4 env) (api_utcnow env) in
  match db s !! Task.id task with
  | Some _ =>
    (HTTPException 500 "Failed to create task", [DbInsert (Task.id task)], s)
  | None =>
    let db' := <[Task.id task := task]> (db s) in
    let '(_, calls, server', client') := start_run env (Task.id task) qc s in
    (Response 201 {| task_id := Task.id task;
                     message := "Task submitted successfully." |},
     DbInsert (Task.id task) :: calls,
     {| db := db'; temporal := server'; _client := client' |})
  end.

(** [GET /tasks/{task_id}] *)
Definition get_task (task_id : N) (s : System) : HttpResponse TaskStatusResponse :=
  match db s !! task_id with
  | None => HTTPException 404 "Task not found."
  | Some task =>
    match Task.status task with
    | COMPLETED =>
      Response 200 {| tsr_status := Task.status task;
                      tsr_result := Task.result task;
                      tsr_message := None |}
    | FAILED =>
      Response 200 {| tsr_status := Task.status task;
                      tsr_result := None;
                      tsr_message := Some "Task execution failed." |}
    | PENDING =>
      Response 200 {| tsr_status := Task.status task;
                      tsr_result := None;
                      tsr_message := Some "Task is still in progress." |}
    end
  end.

(** [DELETE /tasks/{task_id}] *)
Definition delete_task (env : ApiEnv) (task_id : N) (s : System)
  : HttpResponse TaskResponse * list Call * System :=
  match db s !! task_id with
  | None => (HTTPException 404 "Task not found.", [], s)
  | Some task =>
    let '(calls, server', client') :=
      match Task.status task with
      | PENDING =>
        match get_temporal_client (connect_ok env) (_client s) with
        | (inl _, client') => ([GetTemporalClient], temporal s, client')
        | (inr _, client') =>
          let workflow_id := uuid_str task_id in
          let '(_, server') := cancel_workflow (rpc_ok env) workflow_id (temporal s) in
          ([GetTemporalClient; CancelWorkflow workflow_id], server', client')
        end
      | _ => ([], temporal s, _client s)
      end in
    (Response 200 {| task_id := task_id; message := "Task deleted successfully." |},
     (calls ++ [DbDelete task_id])%list,
     {| db := delete task_id (db s); temporal := server'; _client := client' |})
  end.
End Api.

(** [Query(default, ge=.., le=..)]: the declared bounds of an integer
    query parameter.  [None] is the 422 the framework answers before
    the handler runs. *)
Definition Query (default : Z) (ge : Z) (le : option Z) (given : option Z)
  : option Z :=
  match given with
  | None => Some default
  | Some v =>
    if (ge <=? v) && match le with Some hi => v <=? hi | None => true end
    then Some v else None
  end.

(** [limit: int = Query(50, ge=1, le=100)] *)
Definition limit_param : option Z → option Z := Query 50 1 (Some 100).

(** [offset: int = Query(0, ge=0)] *)
Definition offset_param : option Z → option Z := Query 0 0 None.

(** The bounds as a caller reads them: an omitted parameter is always
    in bounds. *)
Definition limit_in_bounds (lim : option Z) : bool :=
  match lim with Some l => bool_decide (1 ≤ l ≤ 100) | None => true end.

Definition offset_in_bounds (off : option Z) : bool :=
  match off with Some o => bool_decide (0 ≤ o) | None => true end.

(** [Task.created_at.desc()] *)
Definition created_at_desc (a b : Task.t) : Prop :=
  Task.created_at b ≤ Task.created_at a.

#[global] Instance created_at_desc_dec a b : Decision (created_at_desc a b).
Proof. unfold created_at_desc. apply _. Defined.

(** [query.filter(Task.status == status_filter)] when a filter is given *)
Definition status_matches (status_filter : option TaskStatus) (task : Task.t) : Prop :=
  match status_filter with
  | Some st => Task.status task = st
  | None => True
  end.

#[global] Instance status_matches_dec f t : Decision (status_matches f t).
Proof. destruct f; simpl; apply _. Defined.

Definition to_item (task : Task.t) : TaskListItem :=
  {| item_id := Task.id task;
     item_status := Task.status task;
     item_created_at := Task.created_at task;
     item_updated_at := Task.updated_at task |}.

(** The handler body of [GET /tasks], on validated parameters that the
    driver binds.  The database leaves the order of rows with equal
    [created_at] open; here a stable merge sort of the table scan
    decides it, one of the answers of [list_tasks_may_return]
    below. *)
Definition list_tasks (status_filter : option TaskStatus) (limit offset : Z)
    (s : System) : TaskListResponse :=
  let query := filter (status_matches status_filter) (map_to_list (db s)).*2 in
  let total := length query in
  let rows := take (Z.to_nat limit)
                (drop (Z.to_nat offset) (merge_sort created_at_desc query)) in
  {| tasks := to_item <$> rows; total := total; limit := limit; offset := offset |}.

(** The widest integer the database driver binds as a query
    parameter: a signed 64-bit one. *)
Definition INT64_MAX : Z := 2 ^ 63 - 1.

(** What the database may answer to [ORDER BY created_at DESC]: the
    rows of the query, newest first, rows of equal [created_at] in
    any order. *)
Definition newest_first (query sorted : list Task.t) : Prop :=
  sorted ≡ₚ query ∧ Sorted created_at_desc sorted.

(** A body the handler may return on parameters the driver binds, the
    database choosing the order among equal [created_at] anew on every
    call. *)
Definition list_tasks_may_return (status_filter : option TaskStatus)
    (limit offset : Z) (s : System) (body : TaskListResponse) : Prop :=
  0 ≤ limit ≤ INT64_MAX ∧ 0 ≤ offset ≤ INT64_MAX ∧
  ∃ sorted,
    newest_first (filter (status_matches status_filter) (map_to_list (db s)).*2)
      sorted ∧
    body = {| tasks := to_item <$> take (Z.to_nat limit) (drop (Z.to_nat offset) sorted);
              total := length (filter (status_matches status_filter)
                                 (map_to_list (db s)).*2);
              limit := limit;
              offset := offset |}.

(** No two tasks that match the filter were created at the same
    time. *)
Definition no_ties (status_filter : option TaskStatus) (s : System) : Prop :=
  NoDup (Task.created_at <$>
           filter (status_matches status_filter) (map_to_list (db s)).*2).

(** [GET /tasks] with its parameter validation.  [offset] has no upper
    bound of its own: a value that passes validation but does not fit
    the driver's integer makes the paginated query raise; the handler
    catches nothing, so [global_exception_handler] answers 500. *)
Definition list_tasks_endpoint (status_filter : option TaskStatus)
    (limit offset : option Z) (s : System) : HttpResponse TaskListResponse :=
  match limit_param limit, offset_param offset with
  | Some l, Some o =>
    if bool_decide (o ≤ INT64_MAX)
    then Response 200 (list_tasks status_filter l o s)
    else HTTPException 500 "Internal Server Error"
  | _, _ => HTTPException 422 "Unprocessable Entity"
  end.

(** ** The system as a transition system *)

(** What can happen next: a submission, one scheduled attempt of an
    execution whose outcome the server records, or a deletion.  Reads
    ([get_task], [list_tasks]) change nothing. *)
Inductive Event (Circuit : Type) :=
| Submit (env : ApiEnv) (qc : string)
| Attempt (env : AttemptEnv Circuit) (workflow_id : string)
| Delete (env : ApiEnv) (task_id : N).
Arguments Submit {Circuit}.
Arguments Attempt {Circuit}.
Arguments Delete {Circuit}.

Section Transitions.
Context {Circuit : Type}.
Variable uuid_str : N → string.
Variable UUID : string → option N.

Definition step (ev : Event Circuit) (s : System) : System :=
  match ev with
  | Submit env qc => (create_task uuid_str env qc s).2
  | Attempt env workflow_id => workflow_attempt UUID env workflow_id s
  | Delete env task_id => (delete_task uuid_str env task_id s).2
  end.

(** Attempts draw their environment from [Good]. *)
Definition event_ok (Good : AttemptEnv Circuit → Prop) (ev : Event Circuit) : Prop :=
  match ev with
  | Attempt env _ => Good env
  | _ => True
  end.

Inductive reachable (Good : AttemptEnv Circuit → Prop) : System → Prop :=
| reachable_init : reachable Good init
| reachable_step ev s :
    reachable Good s → event_ok Good ev → reachable Good (step ev s).

Definition run_events (evs : list (Event Circuit)) (s : System) : System :=
  foldl (λ s ev, step ev s) s evs.
End Transitions.

(** *** Attempts delivered at least once *)

(** [reachable] lets every attempt report: an execution closes with
    the attempt that returns, and no attempt follows a commit.  The
    orchestrator promises less.  A delivery is an event as above, or
    an attempt that ran but whose outcome the server did not get. *)
Inductive Delivery (Circuit : Type) :=
| Reported (ev : Event Circuit)
| Unreported (env : AttemptEnv Circuit) (workflow_id : string).
Arguments Reported {Circuit}.
Arguments Unreported {Circuit}.

Section AtLeastOnce.
Context {Circuit : Type}.
Variable uuid_str : N → string.
Variable UUID : string → option N.

Definition deliver (d : Delivery Circuit) (s : System) : System :=
  match d with
  | Reported ev => step uuid_str UUID ev s
  | Unreported env workflow_id => workflow_attempt_unreported UUID env workflow_id s
  end.

(** [redelivery] says whether outcomes may be lost. *)
Definition delivery_ok (redelivery : bool) (Good : AttemptEnv Circuit → Prop)
    (d : Delivery Circuit) : Prop :=
  match d with
  | Reported ev => event_ok Good ev
  | Unreported env _ => redelivery = true ∧ Good env
  end.

Inductive reachable_at_least_once (redelivery : bool)
    (Good : AttemptEnv Circuit → Prop) : System → Prop :=
| at_least_once_init : reachable_at_least_once redelivery Good init
| at_least_once_step d s :
    reachable_at_least_once redelivery Good s →
    delivery_ok redelivery Good d →
    reachable_at_least_once redelivery Good (deliver d s).
End AtLeastOnce.

(** ** What the system keeps true *)

Section SystemInvariant.
Variable uuid_str : N → string.
(** What the results in the table are known to satisfy. *)
Variable Returned : gmap string Z → Prop.

(** Executions are keyed by the printed id of the row they were
    started for, and carry that same string as their [task_id]. *)
Definition runs_keyed (s : System) : Prop :=
  ∀ wid run, temporal s !! wid = Some run →
    wf_task_id run = wid ∧ ∃ u, wid = uuid_str u.

(** A row is stored under its own id; it has a result exactly when it
    is COMPLETED; the result is one an attempt returned; and once it is
    COMPLETED its execution is closed. *)
Definition row_ok (s : System) (u : N) (t : Task.t) : Prop :=
  Task.id t = u ∧
  (Task.result t ≠ None ↔ Task.status t = COMPLETED) ∧
  (∀ counts, Task.result t = Some counts → Returned counts) ∧
  (Task.status t = COMPLETED →
     ∀ run, temporal s !! uuid_str u = Some run → wf_status run ≠ RUNNING).

Definition system_inv (s : System) : Prop :=
  runs_keyed s ∧ ∀ u t, db s !! u = Some t → row_ok s u t.
End SystemInvariant.

(** What a row keeps true also when attempts are re-delivered: a
    COMPLETED row has a result and a PENDING row has none. *)
Definition result_follows_status (t : Task.t) : Prop :=
  (Task.status t = COMPLETED → Task.result t ≠ None) ∧
  (Task.status t = PENDING → Task.result t = None).

(** ** A concrete platform, to run the model *)

(** A printer and parser for UUIDs that agree on every value: the
    hexadecimal digits of the integer. *)
Definition hex_str (u : N) : string :=
  HexadecimalString.NilEmpty.string_of_uint (N.to_hex_uint u).

Definition hex_UUID (s : string) : option N :=
  N.of_hex_uint <$> HexadecimalString.NilEmpty.uint_of_string s.

(** Circuits are named by their source text. *)
Definition bell_counts : gmap string Z := <["00" := 512]> (<["11" := 512]> ∅).

Definition good_env (now : Z) : AttemptEnv string :=
  {| utcnow := now;
     qasm3_loads := λ q, Some q;
     aer_import_raises := None;
     simulator_run := λ _ shots, Some (<["00" := shots / 2]> (<["11" := shots - shots / 2]> ∅)) |}.

Definition bad_parse_env (now : Z) : AttemptEnv string :=
  {| utcnow := now;
     qasm3_loads := λ _, None;
     aer_import_raises := None;
     simulator_run := λ _ shots, Some (<["00" := shots]> ∅) |}.

Definition bad_run_env (now : Z) : AttemptEnv string :=
  {| utcnow := now;
     qasm3_loads := λ q, Some q;
     aer_import_raises := None;
     simulator_run := λ _ _, None |}.

(** The worker's installation has no [qiskit.providers.aer]. *)
Definition no_aer_env (now : Z) : AttemptEnv string :=
  {| utcnow := now;
     qasm3_loads := λ q, Some q;
     aer_import_raises := Some ModuleNotFoundError;
     simulator_run := λ _ _, None |}.

Definition api_env (u : N) (now : Z) (connect rpc : bool) : ApiEnv :=
  {| uuid4 := u; api_utcnow := now; connect_ok := connect; rpc_ok := rpc |}.

(** A task submitted with the backend up: one PENDING row, one open
    execution keyed by the row's id. *)
Definition submitted : System :=
  step (Circuit := string) hex_str hex_UUID
    (Submit (api_env 10 100 true true) "INVALID QASM3") init.

(** The same, then deleted while the cancel RPC fails: the row is
    gone, the execution is still open. *)
Definition orphan_run : System :=
  step (Circuit := string) hex_str hex_UUID
    (Delete (api_env 0 101 true false) 10) submitted.

(** Attempt number [k] runs at time [200 + k]. *)
Definition every_attempt (mk : Z → AttemptEnv string) (k : nat) : AttemptEnv string :=
  mk (200 + Z.of_nat k).

(** The submitted task after one attempt that parses and runs. *)
Definition completed : System :=
  step hex_str hex_UUID (Attempt (good_env 201) "a") submitted.

(** The submitted task after an attempt that parses, runs and commits
    but whose outcome does not reach the server: the row is COMPLETED,
    the execution is still open. *)
Definition completed_unreported : System :=
  deliver hex_str hex_UUID (Unreported (good_env 201) "a") submitted.

(** The next attempt of that execution, on which the simulator
    fails. *)
Definition failed_after_commit : System :=
  deliver hex_str hex_UUID (Reported (Attempt (bad_run_env 300) "a"))
    completed_unreported.

(** Ten submissions with the backend down, at times 1 to 10. *)
Definition ten_tasks : System :=
  run_events (Circuit := string) hex_str hex_UUID
    ((λ k, Submit (api_env (N.of_nat k) (Z.of_nat k) false false) "OPENQASM 3.0;")
       <$> seq 1 10)
    init.

(** Two submissions with the backend down, both at time 5. *)
Definition tied_tasks : System :=
  run_events (Circuit := string) hex_str hex_UUID
    [Submit (api_env 1 5 false false) "OPENQASM 3.0;";
     Submit (api_env 2 5 false false) "OPENQASM 3.0;"]
    init.

(** The simulator fails on the first two attempts and runs on the
    third. *)
Definition fails_twice (k : nat) : AttemptEnv string :=
  if (k <? 3)%nat then bad_run_env (200 + Z.of_nat k)
  else good_env (200 + Z.of_nat k).

(** ** Outcomes of one attempt, as the payload and environment fix them *)

Section AttemptOutcomes.
Context {Circuit : Type}.

(** The payload does not parse, or the parsed circuit does not run. *)
Definition attempt_raises (env : AttemptEnv Circuit) (qasm3_string : string) : Prop :=
  match parse_qasm3 env qasm3_string with
  | inl _ => True
  | inr circuit => ∃ e, execute_circuit env circuit = inl e
  end.

(** The payload parses and the circuit runs, giving [counts]. *)
Definition attempt_returns (env : AttemptEnv Circuit) (qasm3_string : string)
    (counts : gmap string Z) : Prop :=
  ∃ circuit, parse_qasm3 env qasm3_string = inr circuit ∧
    execute_circuit env circuit = inr counts.
End AttemptOutcomes.


(** ** app/core/models.py: the GUID column type *)

(** The values the column type sees: [None], a [uuid.UUID] object or a
    string. *)
Inductive PyValue := PyNone | PyUUID (u : N) | PyStr (s : string).

Section GUID.
Variable uuid_str : N → string.
Variable UUID : string → option N.

(** [GUID.process_bind_param]: what is handed to the driver.  Under
    the postgresql dialect the value is printed as it is; under any
    other a value that is not a UUID object is first parsed, which
    raises for a malformed string. *)
Definition process_bind_param (value : PyValue) (dialect_name : string)
  : PyExc + PyValue :=
  match value with
  | PyNone => inr PyNone
  | PyUUID u => inr (PyStr (uuid_str u))
  | PyStr s =>
    if decide (dialect_name = "postgresql") then inr (PyStr s)
    else match UUID s with
         | Some u => inr (PyStr (uuid_str u))
         | None => inl ValueError
         end
  end.

(** [GUID.process_result_value]: what the application gets back from
    the driver's value. *)
Definition process_result_value (value : PyValue) (dialect_name : string)
  : PyExc + PyValue :=
  match value with
  | PyNone => inr PyNone
  | PyUUID u => inr (PyUUID u)
  | PyStr s =>
    match UUID s with
    | Some u => inr (PyUUID u)
    | None => inl ValueError
    end
  end.
End GUID.

(** ** app/core/schemas.py *)

(** [TaskCreate]: the [qc] field has [min_length=1], and the validator
    rejects more than 1048576 bytes of UTF-8.  Payloads are byte
    strings here, so both bounds are on [String.length].  [None] is
    the 422 answered before the handler runs. *)
Definition TaskCreate (qc : string) : option string :=
  let size := Z.of_nat (String.length qc) in
  if (1 <=? size) && (size <=? 1048576) then Some qc else None.

Section PostTasks.
Variable uuid_str : N → string.

(** [POST /tasks] with its body validation. *)
Definition post_tasks (env : ApiEnv) (qc : string) (s : System)
  : HttpResponse TaskResponse * list Call * System :=
  match TaskCreate qc with
  | Some task_data => create_task uuid_str env task_data s
  | None => (HTTPException 422 "Unprocessable Entity", [], s)
  end.
End PostTasks.

(** ** app/temporal/client.py and app/main.py: the client's life cycle *)

(** [close_temporal_client()]: whatever closing does, the [finally]
    clears the cached client. *)
Definition close_temporal_client (cached : bool) : bool := false.

(** The start-up half of [lifespan]: the connection test sits in a
    [try] whose [except] only logs, so start-up goes on either way;
    what remains is the cache. *)
Definition lifespan_startup (connect_ok : bool) (cached : bool) : bool :=
  (get_temporal_client connect_ok cached).2.

(** The shut-down half of [lifespan]. *)
Definition lifespan_shutdown (cached : bool) : bool :=
  close_temporal_client cached.

Record HealthBody := {
  health_status : string;
  health_database : string;
  health_temporal : string
}.

(** [GET /health].  [db_healthy] is what [check_db_health()] returned;
    the Temporal side is healthy when [get_temporal_client()] does not
    raise. *)
Definition health_check (db_healthy connect_ok : bool) (cached : bool)
  : Z * HealthBody * bool :=
  let '(client, cached') := get_temporal_client connect_ok cached in
  let temporal_healthy := match client with inr _ => true | inl _ => false end in
  if db_healthy && temporal_healthy
  then (200, {| health_status := "healthy";
                health_database := "ok";
                health_temporal := "ok" |}, cached')
  else (503, {| health_status := "unhealthy";
                health_database := if db_healthy then "ok" else "error";
                health_temporal := if temporal_healthy then "ok" else "error" |},
        cached').

(** ** app/quantum/execution.py: the text handed to the parser *)

(** The [try] block of [parse_qasm3] up to the call of
    [qiskit.qasm3.loads].  The payload is read as a sequence of bytes;
    white space and letter case are those of ASCII, which is how the
    source treats a payload of ASCII text. *)

Definition newline : ascii := ascii_of_nat 10.

(** [c.lower()] on one character *)
Definition lower_ascii (c : ascii) : ascii :=
  let n := nat_of_ascii c in
  if ((65 <=? n) && (n <=? 90))%nat then ascii_of_nat (n + 32) else c.

(** [s.lower()] *)
Definition str_lower (l : list ascii) : list ascii := lower_ascii <$> l.

(** The character class of the two quote characters. *)
Definition is_quote (c : ascii) : bool :=
  let n := nat_of_ascii c in ((n =? 34) || (n =? 39))%nat.

Definition is_ascii (l : list ascii) : bool :=
  forallb (λ c, (nat_of_ascii c <? 128)%nat) l.

Fixpoint drop_while (p : ascii → bool) (l : list ascii) : list ascii :=
  match l with
  | c :: l' => if p c then drop_while p l' else l
  | [] => []
  end.

(** [l.startswith(prefix)], returning what follows the prefix; letters
    are compared through [fold]. *)
Fixpoint strip_prefix (fold : ascii → ascii) (prefix l : list ascii)
  : option (list ascii) :=
  match prefix, l with
  | [], _ => Some l
  | p :: prefix', c :: l' =>
    if decide (fold c = p) then strip_prefix fold prefix' l' else None
  | _ :: _, [] => None
  end.

(** [l.startswith(prefix)] *)
Definition startswith (prefix l : list ascii) : bool :=
  bool_decide (is_Some (strip_prefix id prefix l)).

(** [needle in hay] *)
Fixpoint str_in (needle hay : list ascii) : bool :=
  startswith needle hay ||
  match hay with
  | _ :: hay' => str_in needle hay'
  | [] => false
  end.

(** A match, at the head of [l], of the pattern that [parse_qasm3]
    removes: the word include in any letter case, white space, a quote
    character, one or more characters that are no quote, a quote
    character, optional white space and a semicolon.  The result is
    what follows the match.  Each repetition is greedy and the
    character after it cannot belong to it, so there is one way to
    match. *)
Definition match_include (l : list ascii) : option (list ascii) :=
  match strip_prefix lower_ascii (list_ascii_of_string "include") l with
  | Some (c :: rest) =>
    if isspace c then
      match drop_while isspace rest with
      | q :: c1 :: rest1 =>
        if is_quote q && negb (is_quote c1) then
          match drop_while (λ x, negb (is_quote x)) rest1 with
          | _ :: rest2 =>
            match drop_while isspace rest2 with
            | semi :: rest3 =>
              if decide (semi = ";"%char) then Some rest3 else None
            | [] => None
            end
          | [] => None
          end
        else None
      | _ => None
      end
    else None
  | _ => None
  end.

(** [re.sub(pattern, '', l, flags=re.IGNORECASE)]: matches are looked
    for from left to right and dropped; [skip] counts the characters
    of the current match still to be passed over. *)
Fixpoint re_sub_include (skip : nat) (l : list ascii) : list ascii :=
  match l with
  | [] => []
  | c :: l' =>
    match skip with
    | S skip' => re_sub_include skip' l'
    | O =>
      match match_include l with
      | Some rest => re_sub_include (length l' - length rest) l'
      | None => c :: re_sub_include 0 l'
      end
    end
  end.

(** [s.strip()] *)
Definition str_strip (l : list ascii) : list ascii :=
  reverse (drop_while isspace (reverse (drop_while isspace l))).

(** [s.split(NEWLINE, 1)]: the first line and, when there is a line
    break, what follows it. *)
Fixpoint split_first_line (l : list ascii) : list ascii * option (list ascii) :=
  match l with
  | [] => ([], None)
  | c :: l' =>
    if decide (c = newline) then ([], Some l')
    else let '(first, rest) := split_first_line l' in (c :: first, rest)
  end.

(** The literal [standard_gates]: an empty line, a comment line and
    nine gate definitions, each line ended by a line break. *)
Definition standard_gates : list ascii :=
  newline ::
  concat ((λ line, (list_ascii_of_string line ++ [newline])%list) <$>
    [ "// Standard gate definitions";
      "gate h a { U(pi/2, 0, pi) a; }";
      "gate x a { U(pi, 0, pi) a; }";
      "gate y a { U(pi, pi/2, pi/2) a; }";
      "gate z a { U(0, 0, pi) a; }";
      "gate s a { U(0, 0, pi/2) a; }";
      "gate sdg a { U(0, 0, -pi/2) a; }";
      "gate t a { U(0, 0, pi/4) a; }";
      "gate tdg a { U(0, 0, -pi/4) a; }";
      "gate cx c, t { ctrl(1) @ x c, t; }" ]).

(** Where the standard gates go: nowhere when the text mentions
    [gate h] in any letter case, after the first line when the text
    starts with [OPENQASM], in front otherwise. *)
Definition add_standard_gates (cleaned : list ascii) : list ascii :=
  if str_in (list_ascii_of_string "gate h") (str_lower cleaned) then cleaned
  else if startswith (list_ascii_of_string "OPENQASM") cleaned then
    let '(first, rest) := split_first_line cleaned in
    (first ++ [newline] ++ standard_gates ++ default [] rest)%list
  else (standard_gates ++ cleaned)%list.

(** The text passed to [loads]; [None] when nothing is left after the
    include statements and the surrounding white space are removed,
    where the source raises. *)
Definition clean_qasm3 (qasm3_string : string) : option string :=
  match str_strip (re_sub_include 0 (list_ascii_of_string qasm3_string)) with
  | [] => None
  | cleaned => Some (string_of_list_ascii (add_standard_gates cleaned))
  end.

(** One include statement: the word in any letter case, white space,
    a file name between quote characters, optional white space, a
    semicolon. *)
Definition include_statement (stmt : list ascii) : Prop :=
  ∃ kw ws q name q' ws',
    stmt = (kw ++ ws ++ q :: name ++ q' :: ws' ++ [";"%char])%list ∧
    str_lower kw = list_ascii_of_string "include" ∧
    ws ≠ [] ∧ forallb isspace ws = true ∧
    is_quote q = true ∧
    name ≠ [] ∧ forallb (λ x, negb (is_quote x)) name = true ∧
    is_quote q' = true ∧
    forallb isspace ws' = true.

(** A text made of include statements and white space only. *)
Inductive includes_only : list ascii → Prop :=
| includes_only_nil : includes_only []
| includes_only_space c l :
    isspace c = true → includes_only l → includes_only (c :: l)
| includes_only_statement stmt l :
    include_statement stmt → includes_only l → includes_only (stmt ++ l)%list.

Section QiskitEnv.
Context {Circuit : Type}.

(** The environment of an attempt, given the library's [loads] and the
    simulator: the [try] block cleans the text and parses it. *)
Definition qiskit_env (now : Z) (loads : string → option Circuit)
    (simulator : Circuit → Z → option (gmap string Z)) : AttemptEnv Circuit :=
  {| utcnow := now;
     qasm3_loads := λ qasm3_string, clean_qasm3 qasm3_string ≫= loads;
     aer_import_raises := None;
     simulator_run := simulator |}.
End QiskitEnv.

(** The circuit of the test suite. *)
Definition sample_qasm3 : string :=
  string_of_list_ascii (concat ((λ line, (list_ascii_of_string line ++ [newline])%list) <$>
    [ "OPENQASM 3.0;"; "";
      "qubit[2] q;"; "bit[2] c;"; "";
      "h q[0];"; "cx q[0], q[1];"; "";
      "c[0] = measure q[0];"; "c[1] = measure q[1];" ])).

(** A program whose declaration comes after a comment line. *)
Definition commented_qasm3 : string :=
  string_of_list_ascii
    (list_ascii_of_string "// my circuit" ++ [newline] ++
     list_ascii_of_string "OPENQASM 3.0;" ++ [newline] ++
     list_ascii_of_string "qubit q;")%list.

(** * Properties *)

(** ** Rows and commits *)

Lemma commit_update_id now t t' :
  Task.id (commit_update now t t') = Task.id t'.
Proof. unfold commit_update. case_decide; by subst. Qed.

Lemma commit_update_status now t t' :
  Task.status (commit_update now t t') = Task.status t'.
Proof. unfold commit_update. case_decide; by subst. Qed.

Lemma commit_update_result now t t' :
  Task.result (commit_update now t t') = Task.result t'.
Proof. unfold commit_update. case_decide; by subst. Qed.

Lemma commit_update_created_at now t t' :
  Task.created_at (commit_update now t t') = Task.created_at t'.
Proof. unfold commit_update. case_decide; by subst. Qed.

Lemma commit_update_updated_at now t t' :
  Task.updated_at (commit_update now t t') = Task.updated_at t ∨
  Task.updated_at (commit_update now t t') = now.
Proof. unfold commit_update. case_decide; auto. Qed.

(** ** The external executor *)



(** ** One attempt *)

Section AttemptFacts.
Context {Circuit : Type}.
Variable UUID : string → option N.
Implicit Types (env : AttemptEnv Circuit) (store : Store).

(** A failing [try] block has written nothing. *)
Lemma activity_body_failure env tid q store e store' :
  activity_body UUID env tid q store = (inl e, store') → store' = store.
Proof.
  unfold activity_body. intros Hbody.
  repeat (case_match; simplify_eq); done.
Qed.

(** A returning [try] block went through every stage and wrote the
    loaded row back as COMPLETED with the counts it returns. *)
Lemma activity_body_success env tid q store counts store' :
  activity_body UUID env tid q store = (inr counts, store') →
  ∃ u t c,
    UUID tid = Some u ∧ store !! u = Some t ∧
    parse_qasm3 env q = inr c ∧ execute_circuit env c = inr counts ∧
    store' = <[u := commit_update (utcnow env) t
                      (Task.set_result counts (Task.set_status COMPLETED t))]> store.
Proof.
  unfold activity_body. intros Hbody.
  repeat (case_match; simplify_eq). eauto 10.
Qed.

Lemma activity_success env tid q store counts store' :
  execute_quantum_circuit_activity UUID env tid q store = (inr counts, store') →
  activity_body UUID env tid q store = (inr counts, store').
Proof.
  unfold execute_quantum_circuit_activity.
  destruct (activity_body UUID env tid q store) as [[e|c] d]; congruence.
Qed.

Lemma activity_failure env tid q store e store' :
  execute_quantum_circuit_activity UUID env tid q store = (inl e, store') →
  activity_body UUID env tid q store = (inl e, store) ∧
  store' = (mark_failed UUID env tid store).2.
Proof.
  unfold execute_quantum_circuit_activity.
  destruct (activity_body UUID env tid q store) as [[e'|c] d] eqn:Hbody; [|congruence].
  intros [= -> <-]. by rewrite (activity_body_failure _ _ _ _ _ _ Hbody).
Qed.

(** The handler on a present row, and on an absent one. *)
Lemma mark_failed_found env tid u t store :
  UUID tid = Some u → store !! u = Some t →
  mark_failed UUID env tid store =
    (MarkedFailed,
     <[u := commit_update (utcnow env) t (Task.set_status FAILED t)]> store).
Proof. unfold mark_failed. by intros -> ->. Qed.

Lemma mark_failed_absent env tid u store :
  UUID tid = Some u → store !! u = None →
  mark_failed UUID env tid store = (RowMissing, store).
Proof. unfold mark_failed. by intros -> ->. Qed.
End AttemptFacts.

(** ** The invariant of the running system *)

Section Invariant.
Context {Circuit : Type}.
Variable uuid_str : N → string.
Variable UUID : string → option N.
Hypothesis UUID_str : ∀ u, UUID (uuid_str u) = Some u.

(** What every attempt that [Good] admits is known to return. *)
Variable Good : AttemptEnv Circuit → Prop.
Variable Returned : gmap string Z → Prop.
Hypothesis Good_Returned :
  ∀ env c counts, Good env → execute_circuit env c = inr counts → Returned counts.

Local Abbreviation runs_keyed := (runs_keyed uuid_str).
Local Abbreviation row_ok := (row_ok uuid_str Returned).
Local Abbreviation system_inv := (system_inv uuid_str Returned).

Lemma uuid_str_inj u v : uuid_str u = uuid_str v → u = v.
Proof using UUID_str.
  intros Heq. apply (f_equal UUID) in Heq. rewrite !UUID_str in Heq. congruence.
Qed.

Lemma system_inv_init : system_inv init.
Proof. split; [intros wid run|intros u t]; simpl; by rewrite lookup_empty. Qed.

Lemma row_ok_new s u now : row_ok s u (Task.new u now).
Proof. split_and!; simpl; done. Qed.

(** A row keeps being fine when the executions of other ids change. *)
Lemma row_ok_other_run s s' u t :
  temporal s' !! uuid_str u = temporal s !! uuid_str u →
  row_ok s u t → row_ok s' u t.
Proof. intros Heq (?&?&?&Hrun). split_and!; try done. by rewrite Heq. Qed.

Lemma system_inv_create env qc s :
  system_inv s → system_inv (create_task uuid_str env qc s).2.
Proof using UUID_str.
  intros [Hkeys Hrows]. unfold create_task. simpl.
  destruct (db s !! uuid4 env) eqn:Hfresh; [done|].
  unfold start_run, get_temporal_client.
  destruct (_client s || connect_ok env) eqn:Hclient.
  2:{ apply orb_false_iff in Hclient as [-> ->]. simpl.
      split; [done|]. intros u t. simpl.
      destruct (decide (u = uuid4 env)) as [->|Hne].
      - rewrite lookup_insert_eq. intros [= <-]. apply row_ok_new.
      - rewrite lookup_insert_ne by done. intros Hu.
        by apply (row_ok_other_run s), Hrows. }
  assert (∃ c', (if _client s then (inr (), true)
                 else if connect_ok env then (inr (), true)
                 else (inl RuntimeError, false)) = (@inr PyExc unit (), c')) as [c' ->].
  { destruct (_client s); [eauto|]. destruct (connect_ok env); [eauto|done]. }
  unfold start_workflow.
  destruct (negb (rpc_ok env) || _) eqn:Hopen; simpl.
  - split; [done|]. intros u t. simpl.
    destruct (decide (u = uuid4 env)) as [->|Hne].
    + rewrite lookup_insert_eq. intros [= <-]. apply row_ok_new.
    + rewrite lookup_insert_ne by done. intros Hu.
      by apply (row_ok_other_run s), Hrows.
  - split.
    + intros wid run. simpl.
      destruct (decide (wid = uuid_str (uuid4 env))) as [->|Hne].
      * rewrite lookup_insert_eq. intros [= <-]. simpl. eauto.
      * rewrite lookup_insert_ne by done. apply Hkeys.
    + intros u t. simpl.
      destruct (decide (u = uuid4 env)) as [->|Hne].
      * rewrite lookup_insert_eq. intros [= <-]. apply row_ok_new.
      * rewrite lookup_insert_ne by done. intros Hu.
        apply (row_ok_other_run s); [|by apply Hrows]. simpl.
        rewrite lookup_insert_ne; [done|].
        intros Heq. by apply uuid_str_inj in Heq.
Qed.

Lemma cancel_workflow_lookup rpc wid server wid' :
  (cancel_workflow rpc wid server).2 !! wid' = server !! wid' ∨
  ∃ run run', server !! wid' = Some run ∧
    (cancel_workflow rpc wid server).2 !! wid' = Some run' ∧
    wf_task_id run' = wf_task_id run ∧ wf_status run' = RUN_CANCELED.
Proof.
  unfold cancel_workflow.
  destruct (server !! wid) as [run|] eqn:Hrun; [|by left].
  destruct (rpc && _); [|by left]. simpl.
  destruct (decide (wid' = wid)) as [->|Hne].
  - right. exists run. eexists. rewrite lookup_insert_eq. done.
  - left. by rewrite lookup_insert_ne.
Qed.

Lemma delete_task_temporal env task_id s wid :
  temporal (delete_task uuid_str env task_id s).2 !! wid = temporal s !! wid ∨
  ∃ run run', temporal s !! wid = Some run ∧
    temporal (delete_task uuid_str env task_id s).2 !! wid = Some run' ∧
    wf_task_id run' = wf_task_id run ∧ wf_status run' = RUN_CANCELED.
Proof.
  unfold delete_task.
  destruct (db s !! task_id) as [task|]; [|by left].
  destruct (Task.status task); simpl; try by left.
  destruct (get_temporal_client _ _) as [[e|[]] c']; simpl; [by left|].
  pose proof (cancel_workflow_lookup (rpc_ok env) (uuid_str task_id) (temporal s) wid) as H.
  destruct (cancel_workflow _ _ _) as [o server']. exact H.
Qed.

Lemma delete_task_db env task_id s :
  db (delete_task uuid_str env task_id s).2 = delete task_id (db s).
Proof.
  unfold delete_task.
  destruct (db s !! task_id) as [task|] eqn:Hrow.
  - destruct (Task.status task); simpl; try done.
    destruct (get_temporal_client _ _) as [[e|[]] c']; simpl; [done|].
    by destruct (cancel_workflow _ _ _).
  - simpl. symmetry. by apply delete_id.
Qed.

Lemma system_inv_delete env task_id s :
  system_inv s → system_inv (delete_task uuid_str env task_id s).2.
Proof.
  intros [Hkeys Hrows]. split.
  - intros wid run' Hrun'.
    destruct (delete_task_temporal env task_id s wid) as [Heq|(run&?&Hold&Hnew&Hid&_)].
    + rewrite Heq in Hrun'. by apply Hkeys.
    + rewrite Hnew in Hrun'. injection Hrun' as <-. rewrite Hid. by apply Hkeys.
  - intros u t. rewrite delete_task_db. intros Hu.
    apply lookup_delete_Some in Hu as [_ Hu].
    destruct (Hrows u t Hu) as (?&?&?&Hclosed). split_and!; try done.
    intros Hdone run' Hrun'.
    destruct (delete_task_temporal env task_id s (uuid_str u)) as [Heq|(run&?&Hold&Hnew&_&Hst)].
    + rewrite Heq in Hrun'. by apply Hclosed.
    + rewrite Hnew in Hrun'. injection Hrun' as <-. by rewrite Hst.
Qed.

Lemma system_inv_attempt env wid s :
  Good env → system_inv s → system_inv (workflow_attempt UUID env wid s).
Proof using UUID_str Good_Returned.
  intros Hgood [Hkeys Hrows]. unfold workflow_attempt.
  destruct (temporal s !! wid) as [run|] eqn:Hrun; [|done].
  destruct (wf_status run) eqn:Hopen; try done.
  destruct (Hkeys wid run Hrun) as [Htid [u0 ->]].
  destruct (execute_quantum_circuit_activity _ _ _ _ _) as [outcome db'] eqn:Hact.
  rewrite Htid in Hact.
  split.
  { intros wid' run'. simpl.
    destruct (decide (wid' = uuid_str u0)) as [->|Hne].
    - rewrite lookup_insert_eq. intros [= <-]. simpl. eauto.
    - rewrite lookup_insert_ne by done. apply Hkeys. }
  intros u t'. simpl. intros Hu.
  destruct outcome as [e|counts].
  - (* the attempt raised *)
    apply activity_failure in Hact as [_ ->].
    unfold mark_failed in Hu. rewrite UUID_str in Hu.
    destruct (db s !! u0) as [t0|] eqn:Hrow0; simpl in Hu.
    + destruct (decide (u = u0)) as [->|Hne].
      * rewrite lookup_insert_eq in Hu. injection Hu as <-.
        destruct (Hrows u0 t0 Hrow0) as (Hid&Hiff&Hret&Hclosed).
        assert (Task.status t0 ≠ COMPLETED) as Hnot.
        { intros Hdone. by apply (Hclosed Hdone run). }
        split_and!.
        -- by rewrite commit_update_id.
        -- rewrite commit_update_result, commit_update_status. simpl.
           split; [|done]. intros Hres. by apply Hiff in Hres.
        -- intros counts. rewrite commit_update_result. simpl. apply Hret.
        -- by rewrite commit_update_status.
      * rewrite lookup_insert_ne in Hu by done.
        apply (row_ok_other_run s); [|by apply Hrows]. simpl.
        rewrite lookup_insert_ne; [done|]. intros Heq. by apply uuid_str_inj in Heq.
    + assert (u ≠ u0) by congruence.
      apply (row_ok_other_run s); [|by apply Hrows]. simpl.
      rewrite lookup_insert_ne; [done|]. intros Heq. by apply uuid_str_inj in Heq.
  - (* the attempt returned *)
    apply activity_success, activity_body_success in Hact
      as (u1&t0&c&Hparse&Hrow0&_&Hexec&->).
    rewrite UUID_str in Hparse. injection Hparse as <-.
    destruct (decide (u = u0)) as [->|Hne].
    + rewrite lookup_insert_eq in Hu. injection Hu as <-.
      destruct (Hrows u0 t0 Hrow0) as (Hid&_).
      split_and!.
      * by rewrite commit_update_id.
      * by rewrite commit_update_result, commit_update_status.
      * intros counts'. rewrite commit_update_result. simpl. intros [= <-]. eauto.
      * intros _ run'. simpl. rewrite lookup_insert_eq. by intros [= <-].
    + rewrite lookup_insert_ne in Hu by done.
      apply (row_ok_other_run s); [|by apply Hrows]. simpl.
      rewrite lookup_insert_ne; [done|]. intros Heq. by apply uuid_str_inj in Heq.
Qed.

Lemma system_inv_step ev s :
  event_ok Good ev → system_inv s → system_inv (step uuid_str UUID ev s).
Proof using UUID_str Good_Returned.
  destruct ev; simpl; intros Hok Hinv.
  - by apply system_inv_create.
  - by apply system_inv_attempt.
  - by apply system_inv_delete.
Qed.

Lemma reachable_system_inv s :
  reachable uuid_str UUID Good s → system_inv s.
Proof using UUID_str Good_Returned.
  induction 1 as [|ev s _ IH Hok]; [apply system_inv_init|by apply system_inv_step].
Qed.
End Invariant.

(** ** Where results come from *)

Section Claims.
Context {Circuit : Type}.
Variable uuid_str : N → string.
Variable UUID : string → option N.
Hypothesis UUID_str : ∀ u, UUID (uuid_str u) = Some u.

(** A row that carries a result after a step either carried the same
    result before it, or the step is an attempt that returned and
    wrote this row as COMPLETED with the returned counts. *)
Lemma step_result_origin (ev : Event Circuit) s u t' :
  db (step uuid_str UUID ev s) !! u = Some t' →
  Task.result t' ≠ None →
  (∃ t, db s !! u = Some t ∧ Task.result t' = Task.result t) ∨
  (∃ env wid run counts,
      ev = Attempt env wid ∧
      temporal s !! wid = Some run ∧ wf_status run = RUNNING ∧
      (execute_quantum_circuit_activity UUID env
         (wf_task_id run) (wf_qasm3_string run) (db s)).1 = inr counts ∧
      Task.result t' = Some counts ∧ Task.status t' = COMPLETED).
Proof.
  destruct ev as [env qc|env wid|env task_id]; simpl.
  - (* create_task *)
    unfold create_task. simpl.
    destruct (db s !! uuid4 env) eqn:Hfresh; simpl.
    { intros Hu _. left. eauto. }
    destruct (start_run _ _ _ _ _) as [[[started calls] server'] client']. simpl.
    destruct (decide (u = uuid4 env)) as [->|Hne].
    + rewrite lookup_insert_eq. by intros [= <-].
    + rewrite lookup_insert_ne by done. intros Hu _. left. eauto.
  - (* one attempt *)
    unfold workflow_attempt.
    destruct (temporal s !! wid) as [run|] eqn:Hrun; [|intros; left; by eauto].
    destruct (wf_status run) eqn:Hopen; try (intros; left; by eauto).
    destruct (execute_quantum_circuit_activity _ _ _ _ _) as [[e|counts] db'] eqn:Hact;
      simpl; intros Hu Hres.
    + left. apply activity_failure in Hact as [_ ->].
      unfold mark_failed in Hu.
      destruct (UUID (wf_task_id run)) as [u0|]; [|eauto].
      destruct (db s !! u0) as [t0|] eqn:Hrow0; [|eauto]. simpl in Hu.
      destruct (decide (u = u0)) as [->|Hne].
      * rewrite lookup_insert_eq in Hu. injection Hu as <-.
        exists t0. by rewrite commit_update_result.
      * rewrite lookup_insert_ne in Hu by done. eauto.
    + pose proof Hact as Hact'.
      apply activity_success, activity_body_success in Hact
        as (u0&t0&c&_&Hrow0&_&_&->).
      destruct (decide (u = u0)) as [->|Hne].
      * right. rewrite lookup_insert_eq in Hu. injection Hu as <-.
        exists env, wid, run, counts. rewrite Hact'.
        by rewrite commit_update_result, commit_update_status.
      * rewrite lookup_insert_ne in Hu by done. left. eauto.
  - (* delete_task *)
    rewrite delete_task_db. intros Hu _.
    apply lookup_delete_Some in Hu as [_ Hu]. left. eauto.
Qed.

(** The same for the activity by itself, whoever runs it. *)
Lemma activity_result_origin (env : AttemptEnv Circuit) tid q store u t' :
  (execute_quantum_circuit_activity UUID env tid q store).2 !! u = Some t' →
  Task.result t' ≠ None →
  (∃ t, store !! u = Some t ∧ Task.result t' = Task.result t) ∨
  (∃ counts,
      (execute_quantum_circuit_activity UUID env tid q store).1 = inr counts ∧
      Task.result t' = Some counts ∧ Task.status t' = COMPLETED).
Proof.
  destruct (execute_quantum_circuit_activity UUID env tid q store)
    as [[e|counts] store'] eqn:Hact; simpl; intros Hu Hres.
  - left. apply activity_failure in Hact as [_ ->].
    unfold mark_failed in Hu.
    destruct (UUID tid) as [u0|]; [|eauto].
    destruct (store !! u0) as [t0|] eqn:Hrow0; [|eauto]. simpl in Hu.
    destruct (decide (u = u0)) as [->|Hne].
    + rewrite lookup_insert_eq in Hu. injection Hu as <-.
      exists t0. by rewrite commit_update_result.
    + rewrite lookup_insert_ne in Hu by done. eauto.
  - apply activity_success, activity_body_success in Hact
      as (u0&t0&c&_&Hrow0&_&_&->).
    destruct (decide (u = u0)) as [->|Hne].
    + right. rewrite lookup_insert_eq in Hu. injection Hu as <-.
      exists counts. by rewrite commit_update_result, commit_update_status.
    + rewrite lookup_insert_ne in Hu by done. left. eauto.
Qed.

(** Whether its outcome is reported or lost, a delivery that leaves a
    row with a result it did not carry is an attempt that returned. *)
Lemma deliver_result_origin (d : Delivery Circuit) s u t' :
  db (deliver uuid_str UUID d s) !! u = Some t' →
  Task.result t' ≠ None →
  (∃ t, db s !! u = Some t ∧ Task.result t' = Task.result t) ∨
  (∃ env wid run counts,
      (d = Reported (Attempt env wid) ∨ d = Unreported env wid) ∧
      temporal s !! wid = Some run ∧ wf_status run = RUNNING ∧
      (execute_quantum_circuit_activity UUID env
         (wf_task_id run) (wf_qasm3_string run) (db s)).1 = inr counts ∧
      Task.result t' = Some counts ∧ Task.status t' = COMPLETED).
Proof.
  destruct d as [ev|env wid]; simpl; intros Hu Hres.
  - destruct (step_result_origin ev s u t' Hu Hres)
      as [?|(env&wid&run&counts&->&?)]; [by left|].
    right. exists env, wid, run, counts. split; [by left|done].
  - unfold workflow_attempt_unreported in Hu.
    destruct (temporal s !! wid) as [run|] eqn:Hrun; [|left; by eauto].
    destruct (wf_status run) eqn:Hopen; try (left; by eauto).
    pose proof (activity_result_origin env (wf_task_id run) (wf_qasm3_string run)
                  (db s) u t') as Horigin.
    destruct (execute_quantum_circuit_activity _ _ _ _ _) as [outcome db'] eqn:Hact.
    simpl in Hu, Horigin.
    destruct (Horigin Hu Hres) as [?|(counts&->&?)]; [by left|].
    right. exists env, wid, run, counts. rewrite Hact. split; [by right|done].
Qed.

(** The activity writes COMPLETED only together with counts, and
    FAILED otherwise: rows whose result follows their status stay
    so. *)
Lemma activity_result_follows_status (env : AttemptEnv Circuit) tid q store :
  (∀ u t, store !! u = Some t → result_follows_status t) →
  ∀ u t, (execute_quantum_circuit_activity UUID env tid q store).2 !! u = Some t →
    result_follows_status t.
Proof.
  intros Hrows u t.
  destruct (execute_quantum_circuit_activity UUID env tid q store)
    as [[e|counts] store'] eqn:Hact; simpl; intros Hu.
  - apply activity_failure in Hact as [_ ->].
    unfold mark_failed in Hu.
    destruct (UUID tid) as [u0|]; [|eauto].
    destruct (store !! u0) as [t0|] eqn:Hrow0; [|eauto]. simpl in Hu.
    destruct (decide (u = u0)) as [->|Hne].
    + rewrite lookup_insert_eq in Hu. injection Hu as <-.
      split; rewrite commit_update_status; simpl; congruence.
    + rewrite lookup_insert_ne in Hu by done. eauto.
  - apply activity_success, activity_body_success in Hact
      as (u0&t0&c&_&Hrow0&_&_&->).
    destruct (decide (u = u0)) as [->|Hne].
    + rewrite lookup_insert_eq in Hu. injection Hu as <-.
      split; rewrite commit_update_status, ?commit_update_result; simpl; congruence.
    + rewrite lookup_insert_ne in Hu by done. eauto.
Qed.

Lemma deliver_result_follows_status (d : Delivery Circuit) s :
  (∀ u t, db s !! u = Some t → result_follows_status t) →
  ∀ u t, db (deliver uuid_str UUID d s) !! u = Some t → result_follows_status t.
Proof.
  intros Hrows u t. destruct d as [[env qc|env wid|env task_id]|env wid]; simpl.
  - (* create_task *)
    unfold create_task. simpl.
    destruct (db s !! uuid4 env) eqn:Hfresh; simpl; [by eauto|].
    destruct (start_run _ _ _ _ _) as [[[started calls] server'] client']. simpl.
    destruct (decide (u = uuid4 env)) as [->|Hne].
    + rewrite lookup_insert_eq. intros [= <-]. by split.
    + rewrite lookup_insert_ne by done. eauto.
  - (* an attempt that reports *)
    unfold workflow_attempt.
    destruct (temporal s !! wid) as [run|]; [|by eauto].
    destruct (wf_status run); try by eauto.
    pose proof (activity_result_follows_status env (wf_task_id run)
                  (wf_qasm3_string run) (db s) Hrows u t) as Hkeeps.
    by destruct (execute_quantum_circuit_activity _ _ _ _ _) as [outcome db'].
  - (* delete_task *)
    rewrite delete_task_db. intros Hu.
    apply lookup_delete_Some in Hu as [_ Hu]. eauto.
  - (* an attempt that does not report *)
    unfold workflow_attempt_unreported.
    destruct (temporal s !! wid) as [run|]; [|by eauto].
    destruct (wf_status run); try by eauto.
    pose proof (activity_result_follows_status env (wf_task_id run)
                  (wf_qasm3_string run) (db s) Hrows u t) as Hkeeps.
    by destruct (execute_quantum_circuit_activity _ _ _ _ _) as [outcome db'].
Qed.

(** With no outcome lost the deliveries are the events of
    [reachable]. *)
Lemma reachable_without_redelivery (Good : AttemptEnv Circuit → Prop) s :
  reachable_at_least_once uuid_str UUID false Good s →
  reachable uuid_str UUID Good s.
Proof.
  induction 1 as [|d s _ IH Hok]; [constructor|].
  destruct d as [ev|env wid]; simpl in *.
  - by constructor.
  - by destruct Hok.
Qed.

(** C1.  In every state the system can reach, attempts being delivered
    at least once, a COMPLETED task has a result and a PENDING task
    has none.  When no attempt's outcome is lost a stored task has a
    result if and only if it is COMPLETED, and a FAILED task has none;
    with re-delivery a FAILED task may keep the result an earlier
    attempt committed, the failure handler writing the status only.
    And a delivery that leaves a row with a result it did not already
    carry is an attempt of the activity that returned: it wrote that
    result together with status COMPLETED. *)
Theorem result_written_by_returning_attempt
    (redelivery : bool) (Good : AttemptEnv Circuit → Prop) s :
  reachable_at_least_once uuid_str UUID redelivery Good s →
  (∀ u t, db s !! u = Some t →
     (Task.status t = COMPLETED → Task.result t ≠ None) ∧
     (Task.status t = PENDING → Task.result t = None) ∧
     (redelivery = false →
        (Task.result t ≠ None ↔ Task.status t = COMPLETED) ∧
        (Task.status t = FAILED → Task.result t = None))) ∧
  (∀ (d : Delivery Circuit) u t',
     db (deliver uuid_str UUID d s) !! u = Some t' →
     Task.result t' ≠ None →
     (∃ t, db s !! u = Some t ∧ Task.result t' = Task.result t) ∨
     (∃ env wid run counts,
         (d = Reported (Attempt env wid) ∨ d = Unreported env wid) ∧
         temporal s !! wid = Some run ∧ wf_status run = RUNNING ∧
         (execute_quantum_circuit_activity UUID env
            (wf_task_id run) (wf_qasm3_string run) (db s)).1 = inr counts ∧
         Task.result t' = Some counts ∧ Task.status t' = COMPLETED)).
Proof using UUID_str.
  intros Hreach. split; [|intros d u t'; apply deliver_result_origin].
  intros u t Hu.
  assert (result_follows_status t) as [Hcompleted Hpending].
  { revert u t Hu. induction Hreach as [|d s _ IH _].
    - intros u t Hu. simpl in Hu. by rewrite lookup_empty in Hu.
    - by apply deliver_result_follows_status. }
  split; [done|]. split; [done|]. intros ->.
  apply reachable_without_redelivery in Hreach.
  apply (reachable_system_inv uuid_str UUID UUID_str Good (λ _, True)) in Hreach; [|done].
  destruct Hreach as [_ Hrows]. destruct (Hrows u t Hu) as (_&Hiff&_).
  split; [done|]. intros Hfailed.
  destruct (Task.result t) as [counts|] eqn:Hres; [|done].
  assert (Task.status t = COMPLETED) by (apply Hiff; done). congruence.
Qed.


(** ** Failing attempts and the retry decision *)

(** The policy of the workflow lists no non-retryable error: whatever
    the activity raises is retried while attempts remain. *)
Lemma should_retry_workflow_policy attempt e :
  should_retry workflow_retry_policy attempt e = (attempt <? 3)%nat.
Proof.
  unfold should_retry, workflow_retry_policy. cbn [non_retryable_error_types maximum_attempts].
  rewrite bool_decide_eq_false_2 by apply not_elem_of_nil. done.
Qed.


(** A scheduling step on an open execution whose attempt raises. *)
Lemma workflow_attempt_raises (env : AttemptEnv Circuit) wid s run e db' :
  temporal s !! wid = Some run →
  wf_status run = RUNNING →
  execute_quantum_circuit_activity UUID env
    (wf_task_id run) (wf_qasm3_string run) (db s) = (inl e, db') →
  workflow_attempt UUID env wid s =
    {| db := db';
       temporal := <[wid := {| wf_task_id := wf_task_id run;
                               wf_qasm3_string := wf_qasm3_string run;
                               wf_attempts := S (wf_attempts run);
                               wf_status := if (S (wf_attempts run) <? 3)%nat
                                            then RUNNING else RUN_FAILED |}]>
                    (temporal s);
       _client := _client s |}.
Proof.
  intros Hrun Hopen Hact. unfold workflow_attempt.
  by rewrite Hrun, Hopen, Hact, should_retry_workflow_policy.
Qed.


(** C4, as the code has it.  When an attempt does not find its task in
    the store, the activity raises ValueError and writes nothing; the
    error is an ordinary one for the orchestrator, so the execution
    stays open for a further attempt until three attempts have been
    made. *)
Theorem missing_task_raises_and_is_retried
    (env : AttemptEnv Circuit) wid s run u :
  temporal s !! wid = Some run →
  wf_status run = RUNNING →
  UUID (wf_task_id run) = Some u →
  db s !! u = None →
  let s' := workflow_attempt UUID env wid s in
  execute_quantum_circuit_activity UUID env
    (wf_task_id run) (wf_qasm3_string run) (db s) = (inl ValueError, db s) ∧
  db s' = db s ∧
  ∃ run', temporal s' !! wid = Some run' ∧
    wf_attempts run' = S (wf_attempts run) ∧
    wf_status run' = if (S (wf_attempts run) <? 3)%nat then RUNNING else RUN_FAILED.
Proof.
  intros Hrun Hopen Huuid Hrow s'.
  assert (execute_quantum_circuit_activity UUID env
            (wf_task_id run) (wf_qasm3_string run) (db s)
          = (inl ValueError, db s)) as Hact.
  { unfold execute_quantum_circuit_activity, activity_body.
    rewrite Huuid, Hrow. by rewrite (mark_failed_absent _ _ _ u). }
  subst s'. rewrite (workflow_attempt_raises _ _ _ _ _ _ Hrun Hopen Hact). simpl.
  split_and!; [done..|].
  eexists. rewrite lookup_insert_eq. done.
Qed.

(** ** Submission *)

(** C5.  When the row is stored and starting the execution then fails,
    the caller still gets the 201 acknowledgment with the task id, the
    row stays in the store as PENDING with no result, and the server
    holds no new execution. *)
Theorem create_task_survives_start_failure env qc s e :
  db s !! uuid4 env = None →
  (start_run uuid_str env (uuid4 env) qc s).1.1.1 = inl e →
  let '(response, calls, s') := create_task uuid_str env qc s in
  response = Response 201 {| task_id := uuid4 env;
                             message := "Task submitted successfully." |} ∧
  (∃ t, db s' !! uuid4 env = Some t ∧
     Task.id t = uuid4 env ∧ Task.status t = PENDING ∧ Task.result t = None) ∧
  (∀ v, v ≠ uuid4 env → db s' !! v = db s !! v) ∧
  temporal s' = temporal s.
Proof.
  intros Hfresh Hfail. unfold create_task. simpl. rewrite Hfresh.
  destruct (start_run _ _ _ _ _) as [[[started calls] server'] client'] eqn:Hstart.
  simpl in Hfail. subst started. simpl.
  split_and!.
  - done.
  - eexists. rewrite lookup_insert_eq. done.
  - intros v Hv. by rewrite lookup_insert_ne.
  - unfold start_run in Hstart.
    destruct (get_temporal_client _ _) as [[e'|[]] c']; [congruence|].
    unfold start_workflow in Hstart.
    destruct (negb (rpc_ok env) || _); simpl in Hstart; congruence.
Qed.

(** ** Deletion *)

(** C8.  Deleting an unknown id answers 404, makes no call and changes
    nothing.  Deleting a stored task answers 200 and removes the row
    as the last call, whatever the cancellation did, so that a get on
    that id then answers 404.  For a PENDING task the calls before the
    removal are the cancellation attempt: the client is asked for and,
    when there is one, the execution keyed by the printed task id is
    cancelled.  For a COMPLETED or FAILED task nothing precedes the
    removal and the server is left alone. *)
Theorem delete_task_cancels_pending_then_removes env task_id s :
  match db s !! task_id with
  | None =>
    delete_task uuid_str env task_id s =
      (HTTPException 404 "Task not found.", [], s)
  | Some task =>
    ∃ calls s',
      delete_task uuid_str env task_id s =
        (Response 200 {| task_id := task_id;
                         message := "Task deleted successfully." |},
         (calls ++ [DbDelete task_id])%list, s') ∧
      db s' = delete task_id (db s) ∧
      get_task task_id s' = HTTPException 404 "Task not found." ∧
      (Task.status task = PENDING →
         calls = GetTemporalClient ::
                 (if _client s || connect_ok env
                  then [CancelWorkflow (uuid_str task_id)] else [])) ∧
      (Task.status task ≠ PENDING →
         calls = [] ∧ temporal s' = temporal s)
  end.
Proof.
  destruct (db s !! task_id) as [task|] eqn:Hrow.
  - unfold delete_task. rewrite Hrow.
    assert (∀ d, get_task task_id
                   {| db := delete task_id (db s); temporal := d.1; _client := d.2 |}
                 = HTTPException 404 "Task not found.") as Hgone.
    { intros d. unfold get_task. simpl. by rewrite lookup_delete_eq. }
    destruct (Task.status task) eqn:Hst.
    + unfold get_temporal_client.
      destruct (_client s) eqn:Hc; simpl.
      * destruct (cancel_workflow _ _ _) as [o server'].
        exists [GetTemporalClient; CancelWorkflow (uuid_str task_id)]. eexists.
        split; [reflexivity|]. split_and!; try done.
        apply (Hgone (server', true)).
      * destruct (connect_ok env) eqn:Hconn; simpl.
        -- destruct (cancel_workflow _ _ _) as [o server'].
           exists [GetTemporalClient; CancelWorkflow (uuid_str task_id)]. eexists.
           split; [reflexivity|]. split_and!; try done.
           apply (Hgone (server', true)).
        -- exists [GetTemporalClient]. eexists.
           split; [reflexivity|]. split_and!; try done.
           apply (Hgone (temporal s, false)).
    + exists [], {| db := delete task_id (db s); temporal := temporal s;
                    _client := _client s |}.
      split_and!; try done. apply (Hgone (temporal s, _client s)).
    + exists [], {| db := delete task_id (db s); temporal := temporal s;
                    _client := _client s |}.
      split_and!; try done. apply (Hgone (temporal s, _client s)).
  - unfold delete_task. by rewrite Hrow.
Qed.

(** ** The failure handler *)

(** C9.  When the row is missing, for instance because it was deleted
    while the attempt ran, the handler's FAILED write is skipped: the
    handler takes the branch that writes and logs nothing and leaves
    the table as it found it.  An attempt that found no row ends by
    re-raising its own ValueError, with the table untouched. *)
Theorem mark_failed_skips_missing_row (env : AttemptEnv Circuit) tid q u store :
  UUID tid = Some u →
  store !! u = None →
  mark_failed UUID env tid store = (RowMissing, store) ∧
  execute_quantum_circuit_activity UUID env tid q store = (inl ValueError, store).
Proof.
  intros Huuid Hrow. split; [by apply (mark_failed_absent _ _ _ u)|].
  unfold execute_quantum_circuit_activity, activity_body.
  rewrite Huuid, Hrow. by rewrite (mark_failed_absent _ _ _ u).
Qed.

(** C10.  An attempt that raises leaves every row's id, result and
    created_at as they were, adds and removes no row, and changes at
    most the row of its own task: that row's status becomes FAILED and
    its updated_at is either kept or set to the attempt's clock. *)
Theorem failing_attempt_frame (env : AttemptEnv Circuit) tid q store e store' :
  execute_quantum_circuit_activity UUID env tid q store = (inl e, store') →
  ∀ u,
    match store !! u with
    | None => store' !! u = None
    | Some t =>
      ∃ t', store' !! u = Some t' ∧
        Task.id t' = Task.id t ∧
        Task.result t' = Task.result t ∧
        Task.created_at t' = Task.created_at t ∧
        (t' = t ∨
         UUID tid = Some u ∧ Task.status t' = FAILED ∧
         (Task.updated_at t' = Task.updated_at t ∨
          Task.updated_at t' = utcnow env))
    end.
Proof.
  intros Hact u. apply activity_failure in Hact as [_ ->].
  unfold mark_failed.
  destruct (UUID tid) as [u0|] eqn:Huuid; simpl.
  2:{ destruct (store !! u) as [t|]; [|done]. exists t. split_and!; auto. }
  destruct (decide (u = u0)) as [->|Hne].
  - destruct (store !! u0) as [t0|] eqn:Hrow0; simpl; [|done].
    rewrite lookup_insert_eq. eexists. split; [done|].
    rewrite commit_update_id, commit_update_result, commit_update_created_at,
      commit_update_status. simpl.
    split_and!; try done. right. split_and!; try done.
    apply commit_update_updated_at.
  - destruct (store !! u0) as [t0|]; simpl; [rewrite lookup_insert_ne by done|];
      (destruct (store !! u) as [t|]; [|done]; exists t; split_and!; auto).
Qed.
End Claims.

(** ** Listing *)

#[global] Instance created_at_desc_trans : Transitive created_at_desc.
Proof. unfold created_at_desc. intros a b c. lia. Qed.

#[global] Instance created_at_desc_total : Total created_at_desc.
Proof. unfold created_at_desc. intros a b. lia. Qed.

(** Filtering rows and filtering the map's entries select the same
    number of tasks. *)
Lemma length_filter_rows (P : Task.t → Prop) `{!∀ t, Decision (P t)}
    (entries : list (N * Task.t)) :
  length (filter P entries.*2) = length (filter (λ kv, P kv.2) entries).
Proof.
  induction entries as [|[k t] entries IH]; [done|].
  rewrite fmap_cons, !filter_cons. simpl.
  destruct (decide (P t)); simpl; by rewrite IH.
Qed.

Lemma matching_rows_count (status_filter : option TaskStatus) (store : Store) :
  length (filter (status_matches status_filter) (map_to_list store).*2)
  = size (filter (λ kv, status_matches status_filter kv.2) store).
Proof.
  rewrite length_filter_rows, map_filter_alt, <-length_map_to_list.
  symmetry. apply Permutation_length, map_to_list_to_map.
  apply (sublist_NoDup _ (map_to_list store).*1); [apply NoDup_fst_map_to_list|].
  apply fmap_sublist, sublist_filter.
Qed.

(** The endpoint runs the handler on the defaults-filled parameters
    exactly when both are in bounds and the driver binds the
    offset. *)
Lemma list_tasks_endpoint_validated status_filter lim off s :
  list_tasks_endpoint status_filter lim off s =
    if limit_in_bounds lim && offset_in_bounds off
    then if bool_decide (default 0 off ≤ INT64_MAX)
         then Response 200 (list_tasks status_filter (default 50 lim) (default 0 off) s)
         else HTTPException 500 "Internal Server Error"
    else HTTPException 422 "Unprocessable Entity".
Proof.
  unfold list_tasks_endpoint, limit_param, offset_param, Query,
    limit_in_bounds, offset_in_bounds.
  destruct lim as [l|], off as [o|]; simpl;
    repeat match goal with
           | |- context [(?a <=? ?b)] => destruct (Z.leb_spec a b); simpl
           end;
    repeat case_bool_decide; simpl; try done; lia.
Qed.

(** C6, as the code has it.  The list operation accepts a limit when
    it is omitted, in which case 50 is used, or when it lies between 1
    and 100, and an offset when it is omitted, in which case 0 is
    used, or when it is not negative and below 2^63; a limit outside 1
    to 100, limit 0 among them, or a negative offset is answered 422
    before the handler runs; an offset of 2^63 or more passes the
    validation, then the query raises in the driver and the answer is
    500. *)
Theorem list_tasks_endpoint_bounds status_filter lim off s :
  match lim, off with
  | None, None =>
    list_tasks_endpoint status_filter lim off s =
      Response 200 (list_tasks status_filter 50 0 s)
  | Some l, None =>
    list_tasks_endpoint status_filter lim off s =
      if bool_decide (1 ≤ l ≤ 100)
      then Response 200 (list_tasks status_filter l 0 s)
      else HTTPException 422 "Unprocessable Entity"
  | None, Some o =>
    list_tasks_endpoint status_filter lim off s =
      if bool_decide (0 ≤ o)
      then if bool_decide (o < 2 ^ 63)
           then Response 200 (list_tasks status_filter 50 o s)
           else HTTPException 500 "Internal Server Error"
      else HTTPException 422 "Unprocessable Entity"
  | Some l, Some o =>
    list_tasks_endpoint status_filter lim off s =
      if bool_decide (1 ≤ l ≤ 100 ∧ 0 ≤ o)
      then if bool_decide (o < 2 ^ 63)
           then Response 200 (list_tasks status_filter l o s)
           else HTTPException 500 "Internal Server Error"
      else HTTPException 422 "Unprocessable Entity"
  end.
Proof.
  rewrite list_tasks_endpoint_validated. unfold INT64_MAX.
  destruct lim as [l|], off as [o|]; simpl; try done;
    repeat case_bool_decide; simpl; try done; try tauto; lia.
Qed.


(** * The model at work on the concrete platform *)

Lemma hex_UUID_str u : hex_UUID (hex_str u) = Some u.
Proof.
  unfold hex_UUID, hex_str.
  by rewrite HexadecimalString.NilEmpty.usu; simpl; rewrite HexadecimalN.Unsigned.of_to.
Qed.




Lemma at_least_once_completed_unreported :
  reachable_at_least_once (Circuit := string) hex_str hex_UUID true (λ _, True)
    completed_unreported.
Proof.
  unfold completed_unreported.
  apply at_least_once_step; [|by split].
  apply (at_least_once_step hex_str hex_UUID true (λ _, True)
           (Reported (Submit (api_env 10 100 true true) "INVALID QASM3")) init);
    [apply at_least_once_init|exact I].
Defined.

(** C1 as stated fails on a re-delivered attempt.
    The first attempt of the submitted task commits its counts but its
    outcome does not reach the server, which schedules the next
    attempt; on that one the simulator fails, and the handler writes
    FAILED over a row that keeps its counts. *)
Lemma failed_task_keeps_committed_result :
  reachable_at_least_once (Circuit := string) hex_str hex_UUID true (λ _, True)
    failed_after_commit ∧
  db completed_unreported !! 10%N
    = Some (Task.mk 10 COMPLETED (Some bell_counts) 100 201) ∧
  wf_status <$> temporal completed_unreported !! "a" = Some RUNNING ∧
  db failed_after_commit !! 10%N
    = Some (Task.mk 10 FAILED (Some bell_counts) 100 300).
Proof.
  split; [|vm_compute; done].
  unfold failed_after_commit.
  apply at_least_once_step; [apply at_least_once_completed_unreported|exact I].
Qed.

(** C1 on the task completed by an attempt that did not report, and
    on the task completed by one that did, no outcome being lost. *)
Lemma result_written_by_returning_attempt_completed :
  let t := Task.mk 10 COMPLETED (Some bell_counts) 100 201 in
  (db completed_unreported !! 10%N = Some t ∧
   (Task.status t = COMPLETED → Task.result t ≠ None) ∧
   (Task.status t = PENDING → Task.result t = None)) ∧
  (db completed !! 10%N = Some t ∧
   (Task.result t ≠ None ↔ Task.status t = COMPLETED) ∧
   (Task.status t = FAILED → Task.result t = None)).
Proof.
  assert (db completed_unreported !! 10%N
          = Some (Task.mk 10 COMPLETED (Some bell_counts) 100 201)) as Hlost
    by (vm_compute; reflexivity).
  assert (db completed !! 10%N
          = Some (Task.mk 10 COMPLETED (Some bell_counts) 100 201)) as Hrow
    by (vm_compute; reflexivity).
  assert (reachable_at_least_once (Circuit := string) hex_str hex_UUID false
            (λ _, True) completed) as Hreach.
  { apply (at_least_once_step hex_str hex_UUID false (λ _, True)
             (Reported (Attempt (good_env 201) "a")) submitted); [|exact I].
    apply (at_least_once_step hex_str hex_UUID false (λ _, True)
             (Reported (Submit (api_env 10 100 true true) "INVALID QASM3")) init);
      [apply at_least_once_init|exact I]. }
  split.
  - split; [exact Hlost|].
    destruct (proj1 (result_written_by_returning_attempt (Circuit := string)
                       hex_str hex_UUID hex_UUID_str true (λ _, True)
                       completed_unreported at_least_once_completed_unreported)
                10%N _ Hlost) as (Hcompleted & Hpending & _).
    exact (conj Hcompleted Hpending).
  - split; [exact Hrow|].
    destruct (proj1 (result_written_by_returning_attempt (Circuit := string)
                       hex_str hex_UUID hex_UUID_str false (λ _, True)
                       completed Hreach)
                10%N _ Hrow) as (_ & _ & Hiff).
    exact (Hiff eq_refl).
Defined.




(** C4 as stated fails: the task of the orphaned execution is not in
    the store, the attempt raises ValueError, but the execution is
    still open after that attempt, and the orchestrator goes on to
    make three attempts before it closes. *)
Lemma missing_task_is_retried_three_times :
  db orphan_run !! 10%N = None ∧
  execute_quantum_circuit_activity hex_UUID (good_env 201)
    "a" "INVALID QASM3" (db orphan_run) = (inl ValueError, db orphan_run) ∧
  temporal (workflow_attempt hex_UUID (good_env 201) "a" orphan_run) !! "a"
    = Some {| wf_task_id := "a";
              wf_qasm3_string := "INVALID QASM3";
              wf_attempts := 1;
              wf_status := RUNNING |} ∧
  temporal (run_workflow hex_UUID 10 (every_attempt good_env) "a" orphan_run) !! "a"
    = Some {| wf_task_id := "a";
              wf_qasm3_string := "INVALID QASM3";
              wf_attempts := 3;
              wf_status := RUN_FAILED |}.
Proof. vm_compute. done. Qed.

(** The amended C4 on the same attempt. *)
Lemma missing_task_raises_and_is_retried_orphan :
  let s' := workflow_attempt hex_UUID (good_env 201) "a" orphan_run in
  execute_quantum_circuit_activity hex_UUID (good_env 201)
    "a" "INVALID QASM3" (db orphan_run) = (inl ValueError, db orphan_run) ∧
  db s' = db orphan_run ∧
  ∃ run', temporal s' !! "a" = Some run' ∧
    wf_attempts run' = 1%nat ∧ wf_status run' = RUNNING.
Proof.
  apply (missing_task_raises_and_is_retried hex_UUID (good_env 201)
           "a" orphan_run
           {| wf_task_id := "a"; wf_qasm3_string := "INVALID QASM3";
              wf_attempts := 0; wf_status := RUNNING |} 10);
    vm_compute; reflexivity.
Defined.

(** C5 on a first submission while the backend cannot be reached. *)
Lemma create_task_survives_start_failure_init :
  let '(response, calls, s') :=
    create_task hex_str (api_env 10 100 false true) "OPENQASM 3.0;" init in
  response = Response 201 {| task_id := 10;
                             message := "Task submitted successfully." |} ∧
  (∃ t, db s' !! 10%N = Some t ∧
     Task.id t = 10%N ∧ Task.status t = PENDING ∧ Task.result t = None) ∧
  (∀ v, v ≠ 10%N → db s' !! v = db init !! v) ∧
  temporal s' = temporal init.
Proof.
  apply (create_task_survives_start_failure hex_str (api_env 10 100 false true)
           "OPENQASM 3.0;" init RuntimeError); reflexivity.
Defined.

(** C6 as stated fails twice.  Limit 0 lies between 0 and 100 and
    offset 0 is not negative, yet the request is answered 422.  And
    limit 50 with offset 2^63, which is not negative either, passes
    the validation and is answered 500. *)
Lemma limit_zero_and_offset_overflow_not_accepted :
  (0 ≤ 0 ≤ 100 ∧ 0 ≤ 0 ∧
   ∀ status_filter s,
     list_tasks_endpoint status_filter (Some 0) (Some 0) s =
       HTTPException 422 "Unprocessable Entity") ∧
  (0 ≤ 50 ≤ 100 ∧ 0 ≤ 2 ^ 63 ∧
   offset_param (Some (2 ^ 63)) = Some (2 ^ 63) ∧
   ∀ status_filter s,
     list_tasks_endpoint status_filter (Some 50) (Some (2 ^ 63)) s =
       HTTPException 500 "Internal Server Error").
Proof. split; split_and!; try lia; done. Qed.


(** Scenario: ten tasks, limit 5, offset 0 gives the five newest and
    total 10. *)
Example list_ten_tasks_limit_five :
  item_id <$> tasks (list_tasks None 5 0 ten_tasks) = [10; 9; 8; 7; 6]%N ∧
  total (list_tasks None 5 0 ten_tasks) = 10%nat.
Proof. vm_compute. done. Qed.

(** C9 on the table from which the submitted task was deleted. *)
Lemma mark_failed_skips_missing_row_orphan :
  mark_failed hex_UUID (good_env 201) "a" (delete 10%N (db submitted))
    = (RowMissing, delete 10%N (db submitted)) ∧
  execute_quantum_circuit_activity hex_UUID (good_env 201) "a" "INVALID QASM3"
    (delete 10%N (db submitted)) = (inl ValueError, delete 10%N (db submitted)).
Proof.
  apply (mark_failed_skips_missing_row hex_UUID (good_env 201) "a" "INVALID QASM3"
           10 (delete 10%N (db submitted))).
  - vm_compute. reflexivity.
  - apply lookup_delete_eq.
Defined.

(** C10 on the failing attempt of the submitted task, at its row. *)
Lemma failing_attempt_frame_submitted :
  let t := Task.mk 10 PENDING None 100 100 in
  let store' := db (workflow_attempt hex_UUID (bad_parse_env 201) "a" submitted) in
  db submitted !! 10%N = Some t ∧
  ∃ t', store' !! 10%N = Some t' ∧
    Task.id t' = Task.id t ∧
    Task.result t' = Task.result t ∧
    Task.created_at t' = Task.created_at t ∧
    (t' = t ∨
     hex_UUID "a" = Some 10%N ∧ Task.status t' = FAILED ∧
     (Task.updated_at t' = Task.updated_at t ∨
      Task.updated_at t' = utcnow (bad_parse_env 201))).
Proof.
  split; [vm_compute; reflexivity|].
  assert (execute_quantum_circuit_activity hex_UUID (bad_parse_env 201)
            "a" "INVALID QASM3" (db submitted)
          = (inl ValueError,
             db (workflow_attempt hex_UUID (bad_parse_env 201) "a" submitted)))
    as Hact by (vm_compute; reflexivity).
  exact (failing_attempt_frame hex_UUID (bad_parse_env 201) "a" "INVALID QASM3"
           (db submitted) ValueError _ Hact 10%N).
Defined.

(** Scenario: the executor fails twice, then succeeds.  A poll after
    the first attempt sees FAILED; the third attempt leaves the task
    COMPLETED and closes the execution. *)
Example fails_twice_then_completes :
  db (workflow_attempt hex_UUID (fails_twice 1) "a" submitted) !! 10%N
    = Some (Task.mk 10 FAILED None 100 201) ∧
  db (run_workflow hex_UUID 10 fails_twice "a" submitted) !! 10%N
    = Some (Task.mk 10 COMPLETED (Some bell_counts) 100 203) ∧
  temporal (run_workflow hex_UUID 10 fails_twice "a" submitted) !! "a"
    = Some {| wf_task_id := "a";
              wf_qasm3_string := "INVALID QASM3";
              wf_attempts := 3;
              wf_status := RUN_COMPLETED |}.
Proof. vm_compute. done. Qed.

(** Scenario: delete while PENDING.  The cancellation comes first, the
    row goes, the execution is closed, and a get answers 404. *)
Example delete_pending_task :
  let '(response, calls, s') :=
    delete_task hex_str (api_env 0 101 true true) 10 submitted in
  response = Response 200 {| task_id := 10;
                             message := "Task deleted successfully." |} ∧
  calls = [GetTemporalClient; CancelWorkflow "a"; DbDelete 10] ∧
  wf_status <$> temporal s' !! "a" = Some RUN_CANCELED ∧
  get_task 10 s' = HTTPException 404 "Task not found.".
Proof. vm_compute. done. Qed.

(** * Further properties of the pipeline *)

Section Pipeline.
Context {Circuit : Type}.
Variable uuid_str : N → string.
Variable UUID : string → option N.
Hypothesis UUID_str : ∀ u, UUID (uuid_str u) = Some u.

(** ** The activity *)

Lemma activity_raises_store (env : AttemptEnv Circuit) tid q u t store :
  UUID tid = Some u → store !! u = Some t → attempt_raises env q →
  ∃ e, execute_quantum_circuit_activity UUID env tid q store =
    (inl e, <[u := commit_update (utcnow env) t (Task.set_status FAILED t)]> store).
Proof.
  intros Huuid Hrow Hraise. unfold attempt_raises in Hraise.
  unfold execute_quantum_circuit_activity, activity_body. rewrite Huuid, Hrow.
  destruct (parse_qasm3 env q) as [e|c].
  - exists e. by rewrite (mark_failed_found _ _ _ u t).
  - destruct Hraise as [e ->]. exists e. by rewrite (mark_failed_found _ _ _ u t).
Qed.

(** What a returning attempt writes, as far as the workflow needs it. *)
Lemma activity_returns_store (env : AttemptEnv Circuit) tid q u t store counts :
  UUID tid = Some u →
  store !! u = Some t →
  attempt_returns env q counts →
  ∃ t',
    execute_quantum_circuit_activity UUID env tid q store
      = (inr counts, <[u := t']> store) ∧
    Task.status t' = COMPLETED ∧
    Task.result t' = Some counts.
Proof.
  intros Huuid Hrow (c & Hparse & Hexec).
  eexists. split.
  - unfold execute_quantum_circuit_activity, activity_body.
    by rewrite Huuid, Hrow, Hparse, Hexec.
  - by rewrite commit_update_status, commit_update_result.
Qed.

(** X1.  An attempt whose payload parses and whose circuit runs
    returns the counts and leaves its task COMPLETED with exactly
    these counts, whatever the task's status was before; the row keeps
    its id and creation time, and no other row changes. *)
Theorem activity_returns_and_completes
    (env : AttemptEnv Circuit) tid q u t store counts :
  UUID tid = Some u →
  store !! u = Some t →
  attempt_returns env q counts →
  ∃ t',
    execute_quantum_circuit_activity UUID env tid q store
      = (inr counts, <[u := t']> store) ∧
    Task.status t' = COMPLETED ∧
    Task.result t' = Some counts ∧
    Task.id t' = Task.id t ∧
    Task.created_at t' = Task.created_at t ∧
    (t' = t ∨ Task.updated_at t' = utcnow env).
Proof.
  intros Huuid Hrow (c & Hparse & Hexec).
  eexists. split.
  - unfold execute_quantum_circuit_activity, activity_body.
    by rewrite Huuid, Hrow, Hparse, Hexec.
  - rewrite commit_update_status, commit_update_result, commit_update_id,
      commit_update_created_at. simpl. split_and!; try done.
    unfold commit_update. case_decide; [by left|by right].
Qed.

(** ** The workflow *)

Lemma workflow_attempt_returns (env : AttemptEnv Circuit) wid s run counts db' :
  temporal s !! wid = Some run →
  wf_status run = RUNNING →
  execute_quantum_circuit_activity UUID env
    (wf_task_id run) (wf_qasm3_string run) (db s) = (inr counts, db') →
  workflow_attempt UUID env wid s =
    {| db := db';
       temporal := <[wid := {| wf_task_id := wf_task_id run;
                               wf_qasm3_string := wf_qasm3_string run;
                               wf_attempts := S (wf_attempts run);
                               wf_status := RUN_COMPLETED |}]> (temporal s);
       _client := _client s |}.
Proof.
  intros Hrun Hopen Hact. unfold workflow_attempt. by rewrite Hrun, Hopen, Hact.
Qed.

(** X2.  When the payload parses but [execute_circuit] raises on an
    attempt for a stored task, the activity re-raises that error:
    RuntimeError when the failure is inside the [try] block of
    [execute_circuit], the import's own error when the import of the
    simulator raises, the import standing before the [try].  The
    row is written FAILED and its result column is left as it was,
    every other row being left alone; the execution stays open for a
    further attempt until three attempts have been made. *)
Theorem compute_failure_fails_task_and_is_retried
    (env : AttemptEnv Circuit) wid s run u t circuit e :
  temporal s !! wid = Some run →
  wf_status run = RUNNING →
  UUID (wf_task_id run) = Some u →
  db s !! u = Some t →
  parse_qasm3 env (wf_qasm3_string run) = inr circuit →
  execute_circuit env circuit = inl e →
  let s' := workflow_attempt UUID env wid s in
  e = default RuntimeError (aer_import_raises env) ∧
  execute_quantum_circuit_activity UUID env
    (wf_task_id run) (wf_qasm3_string run) (db s) = (inl e, db s') ∧
  (∃ t', db s' !! u = Some t' ∧
     Task.status t' = FAILED ∧ Task.result t' = Task.result t) ∧
  (∀ v, v ≠ u → db s' !! v = db s !! v) ∧
  ∃ run', temporal s' !! wid = Some run' ∧
    wf_attempts run' = S (wf_attempts run) ∧
    wf_status run' = if (S (wf_attempts run) <? 3)%nat then RUNNING else RUN_FAILED.
Proof.
  intros Hrun Hopen Huuid Hrow Hparse Hexec s'.
  assert (e = default RuntimeError (aer_import_raises env)) as He.
  { unfold execute_circuit in Hexec.
    destruct (aer_import_raises env); simpl; [congruence|].
    destruct (simulator_run env circuit NUM_SHOTS); congruence. }
  assert (execute_quantum_circuit_activity UUID env
            (wf_task_id run) (wf_qasm3_string run) (db s)
          = (inl e,
             <[u := commit_update (utcnow env) t (Task.set_status FAILED t)]> (db s)))
    as Hact.
  { unfold execute_quantum_circuit_activity, activity_body.
    rewrite Huuid, Hrow, Hparse, Hexec. by rewrite (mark_failed_found _ _ _ u t). }
  subst s'. rewrite (workflow_attempt_raises _ _ _ _ _ _ _ Hrun Hopen Hact). simpl.
  split_and!.
  - exact He.
  - done.
  - eexists. rewrite lookup_insert_eq. split; [done|].
    by rewrite commit_update_status, commit_update_result.
  - intros v Hv. by rewrite lookup_insert_ne.
  - eexists. rewrite lookup_insert_eq. done.
Qed.






Lemma run_workflow_open fuel (envs : nat → AttemptEnv Circuit) wid s run :
  temporal s !! wid = Some run →
  wf_status run = RUNNING →
  run_workflow UUID (S fuel) envs wid s =
    run_workflow UUID fuel envs wid
      (workflow_attempt UUID (envs (S (wf_attempts run))) wid s).
Proof. intros Hrun Hopen. simpl. by rewrite Hrun, Hopen. Qed.

Lemma run_workflow_closed fuel (envs : nat → AttemptEnv Circuit) wid s run :
  temporal s !! wid = Some run →
  wf_status run ≠ RUNNING →
  run_workflow UUID fuel envs wid s = s.
Proof.
  intros Hrun Hclosed. destruct fuel; [done|]. simpl. rewrite Hrun.
  by destruct (wf_status run).
Qed.




(** The same run, counted by the attempts [n] that remain. *)
Lemma run_workflow_all_raise
    n fuel (envs : nat → AttemptEnv Circuit) wid s run u t :
  temporal s !! wid = Some run →
  wf_status run = RUNNING →
  (wf_attempts run + S n = 3)%nat →
  UUID (wf_task_id run) = Some u →
  db s !! u = Some t →
  (∀ j, (wf_attempts run < j ≤ 3)%nat → attempt_raises (envs j) (wf_qasm3_string run)) →
  (S n ≤ fuel)%nat →
  temporal (run_workflow UUID fuel envs wid s) !! wid =
    Some {| wf_task_id := wf_task_id run;
            wf_qasm3_string := wf_qasm3_string run;
            wf_attempts := 3;
            wf_status := RUN_FAILED |} ∧
  ∃ t', db (run_workflow UUID fuel envs wid s) !! u = Some t' ∧
    Task.status t' = FAILED ∧ Task.result t' = Task.result t.
Proof.
  revert fuel s run t.
  induction n as [|n IH]; intros fuel s run t Hrun Hopen Hleft Huuid Hrow Hraise Hfuel;
    (destruct fuel as [|fuel]; [lia|]);
    rewrite (run_workflow_open _ _ _ _ _ Hrun Hopen);
    (destruct (activity_raises_store (envs (S (wf_attempts run)))
                 (wf_task_id run) (wf_qasm3_string run) u t (db s) Huuid Hrow)
       as [e Hact]; [apply Hraise; lia|]);
    rewrite (workflow_attempt_raises _ _ _ _ _ _ _ Hrun Hopen Hact).
  - (* the third attempt *)
    destruct (Nat.ltb_spec (S (wf_attempts run)) 3) as [?|_]; [lia|].
    assert (S (wf_attempts run) = 3)%nat as -> by lia.
    erewrite run_workflow_closed; simpl; [| by rewrite lookup_insert_eq | done].
    rewrite !lookup_insert_eq. split; [done|].
    eexists. split; [done|].
    by rewrite commit_update_status, commit_update_result.
  - (* an earlier attempt *)
    destruct (Nat.ltb_spec (S (wf_attempts run)) 3) as [_|?]; [|lia].
    match goal with |- context [run_workflow UUID fuel envs wid ?s1] =>
      destruct (IH fuel s1
                  {| wf_task_id := wf_task_id run;
                     wf_qasm3_string := wf_qasm3_string run;
                     wf_attempts := S (wf_attempts run);
                     wf_status := RUNNING |}
                  (commit_update (utcnow (envs (S (wf_attempts run)))) t
                     (Task.set_status FAILED t)))
        as (Hfinal & t' & Ht' & Hst & Hres)
    end; simpl; try done; try lia.
    + by rewrite lookup_insert_eq.
    + by rewrite lookup_insert_eq.
    + intros j Hj. apply Hraise. lia.
    + split; [done|]. exists t'. split_and!; try done.
      by rewrite Hres, commit_update_result.
Qed.

(** X5.  Retries exhausted.  If every remaining attempt of an open
    execution raises, running it to its end makes exactly three
    attempts in total and closes it as failed; its task, when stored,
    ends FAILED with the result column it had. *)
Theorem run_workflow_exhausts_retries
    fuel (envs : nat → AttemptEnv Circuit) wid s run u t :
  temporal s !! wid = Some run →
  wf_status run = RUNNING →
  (wf_attempts run < 3)%nat →
  UUID (wf_task_id run) = Some u →
  db s !! u = Some t →
  (∀ j, (wf_attempts run < j ≤ 3)%nat → attempt_raises (envs j) (wf_qasm3_string run)) →
  (3 - wf_attempts run ≤ fuel)%nat →
  let s' := run_workflow UUID fuel envs wid s in
  temporal s' !! wid = Some {| wf_task_id := wf_task_id run;
                               wf_qasm3_string := wf_qasm3_string run;
                               wf_attempts := 3;
                               wf_status := RUN_FAILED |} ∧
  ∃ t', db s' !! u = Some t' ∧
    Task.status t' = FAILED ∧ Task.result t' = Task.result t.
Proof.
  intros Hrun Hopen Hlt Huuid Hrow Hraise Hfuel. simpl.
  destruct (3 - wf_attempts run)%nat as [|n] eqn:Hleft; [lia|].
  apply (run_workflow_all_raise n fuel envs wid s run u t); try done.
  lia.
Qed.

(** X6.  Retries converge.  If the attempts of an open execution raise
    until one, no later than the third in total, returns, then running
    the execution to its end closes it as completed after exactly that
    many attempts, and its task ends COMPLETED with the counts that
    attempt returned, though polls in between saw FAILED. *)
Theorem run_workflow_converges
    fuel (envs : nat → AttemptEnv Circuit) wid s run u t k counts :
  temporal s !! wid = Some run →
  wf_status run = RUNNING →
  UUID (wf_task_id run) = Some u →
  db s !! u = Some t →
  (1 ≤ k)%nat →
  (wf_attempts run + k ≤ 3)%nat →
  (∀ j, (wf_attempts run < j < wf_attempts run + k)%nat →
     attempt_raises (envs j) (wf_qasm3_string run)) →
  attempt_returns (envs (wf_attempts run + k)%nat) (wf_qasm3_string run) counts →
  (k ≤ fuel)%nat →
  let s' := run_workflow UUID fuel envs wid s in
  temporal s' !! wid = Some {| wf_task_id := wf_task_id run;
                               wf_qasm3_string := wf_qasm3_string run;
                               wf_attempts := wf_attempts run + k;
                               wf_status := RUN_COMPLETED |} ∧
  ∃ t', db s' !! u = Some t' ∧
    Task.status t' = COMPLETED ∧ Task.result t' = Some counts.
Proof.
  intros Hrun Hopen Huuid Hrow Hk Hcap Hraise Hret Hfuel. simpl.
  revert fuel s run t Hrun Hopen Huuid Hrow Hk Hcap Hraise Hret Hfuel.
  induction k as [|k IH]; intros; [lia|].
  destruct fuel as [|fuel]; [lia|].
  rewrite (run_workflow_open _ _ _ _ _ Hrun Hopen).
  destruct k as [|k].
  - (* this attempt returns *)
    replace (wf_attempts run + 1)%nat with (S (wf_attempts run)) in * by lia.
    destruct (activity_returns_store (envs (S (wf_attempts run)))
                (wf_task_id run) (wf_qasm3_string run) u t (db s) counts
                Huuid Hrow Hret) as (t' & Hact & Hst & Hres).
    rewrite (workflow_attempt_returns _ _ _ _ _ _ Hrun Hopen Hact).
    erewrite run_workflow_closed; simpl; [| by rewrite lookup_insert_eq | done].
    rewrite !lookup_insert_eq. split; [done|]. by exists t'.
  - (* this attempt raises, a later one returns *)
    destruct (activity_raises_store (envs (S (wf_attempts run)))
                (wf_task_id run) (wf_qasm3_string run) u t (db s) Huuid Hrow)
      as [e Hact]; [apply Hraise; lia|].
    rewrite (workflow_attempt_raises _ _ _ _ _ _ _ Hrun Hopen Hact).
    destruct (Nat.ltb_spec (S (wf_attempts run)) 3) as [_|?]; [|lia].
    match goal with |- context [run_workflow UUID fuel envs wid ?s1] =>
      destruct (IH fuel s1
                  {| wf_task_id := wf_task_id run;
                     wf_qasm3_string := wf_qasm3_string run;
                     wf_attempts := S (wf_attempts run);
                     wf_status := RUNNING |}
                  (commit_update (utcnow (envs (S (wf_attempts run)))) t
                     (Task.set_status FAILED t)))
        as (Hfinal & t' & Ht' & Hst & Hres)
    end; simpl; try done; try lia.
    + by rewrite lookup_insert_eq.
    + by rewrite lookup_insert_eq.
    + intros j Hj. apply Hraise. lia.
    + replace (S (wf_attempts run + S k)) with (wf_attempts run + S (S k))%nat by lia.
      exact Hret.
    + simpl in Hfinal.
      replace (S (wf_attempts run + S k)) with (wf_attempts run + S (S k))%nat
        in Hfinal by lia.
      split; [done|]. by exists t'.
Qed.

(** ** The request handlers *)

(** X7.  A task that was just stored by a submission is found by a
    get: the answer is 200 with status PENDING, no result and the
    in-progress message, whether or not the execution could be
    started. *)
Theorem get_task_after_create env qc s :
  db s !! uuid4 env = None →
  get_task (uuid4 env) (create_task uuid_str env qc s).2 =
    Response 200 {| tsr_status := PENDING;
                    tsr_result := None;
                    tsr_message := Some "Task is still in progress." |}.
Proof.
  intros Hfresh. unfold create_task. simpl. rewrite Hfresh.
  destruct (start_run _ _ _ _ _) as [[[started calls] server'] client'].
  unfold get_task. simpl. by rewrite lookup_insert_eq.
Qed.

(** X8.  A submission never alters or removes a stored task: every row
    of the table before it is the same row after it, also when the new
    id collides with a stored one and the submission is answered
    500. *)
Theorem create_task_keeps_rows env qc s u t :
  db s !! u = Some t →
  db (create_task uuid_str env qc s).2 !! u = Some t.
Proof.
  intros Hrow. unfold create_task. simpl.
  destruct (db s !! uuid4 env) eqn:Hfresh; [done|].
  destruct (start_run _ _ _ _ _) as [[[started calls] server'] client']. simpl.
  rewrite lookup_insert_ne; [done|]. congruence.
Qed.

(** A submission that reaches the server: the whole outcome. *)
Lemma create_task_started env qc s :
  db s !! uuid4 env = None →
  _client s || connect_ok env = true →
  rpc_ok env = true →
  (∀ run, temporal s !! uuid_str (uuid4 env) = Some run → wf_status run ≠ RUNNING) →
  create_task uuid_str env qc s =
    (Response 201 {| task_id := uuid4 env;
                     message := "Task submitted successfully." |},
     [DbInsert (uuid4 env); GetTemporalClient;
      StartWorkflow (uuid_str (uuid4 env))],
     {| db := <[uuid4 env := Task.new (uuid4 env) (api_utcnow env)]> (db s);
        temporal := <[uuid_str (uuid4 env) :=
                       {| wf_task_id := uuid_str (uuid4 env);
                          wf_qasm3_string := qc;
                          wf_attempts := 0;
                          wf_status := RUNNING |}]> (temporal s);
        _client := true |}).
Proof.
  intros Hfresh Hclient Hrpc Hclosed. unfold create_task. simpl. rewrite Hfresh.
  unfold start_run, get_temporal_client, start_workflow. rewrite Hrpc. simpl.
  assert ((match temporal s !! uuid_str (uuid4 env) with
           | Some run => bool_decide (wf_status run = RUNNING)
           | None => false
           end) = false) as ->.
  { destruct (temporal s !! uuid_str (uuid4 env)) as [run|]; [|done].
    apply bool_decide_eq_false_2. by apply Hclosed. }
  destruct (_client s); simpl in *; [done|]. by rewrite Hclient.
Qed.

(** X9.  When the row is stored, a client is at hand or can be
    connected, the server accepts the call and holds no open execution
    under the printed task id, a submission inserts the row, gets the
    client and starts the workflow, in this order; the server then
    holds an open execution under the printed task id, which carries
    that id and the submitted payload and has made no attempt; the
    other executions are as before. *)
Theorem create_task_starts_keyed_run env qc s :
  db s !! uuid4 env = None →
  _client s || connect_ok env = true →
  rpc_ok env = true →
  (∀ run, temporal s !! uuid_str (uuid4 env) = Some run → wf_status run ≠ RUNNING) →
  let '(response, calls, s') := create_task uuid_str env qc s in
  calls = [DbInsert (uuid4 env); GetTemporalClient;
           StartWorkflow (uuid_str (uuid4 env))] ∧
  temporal s' !! uuid_str (uuid4 env) =
    Some {| wf_task_id := uuid_str (uuid4 env);
            wf_qasm3_string := qc;
            wf_attempts := 0;
            wf_status := RUNNING |} ∧
  (∀ wid, wid ≠ uuid_str (uuid4 env) → temporal s' !! wid = temporal s !! wid) ∧
  _client s' = true.
Proof.
  intros Hfresh Hclient Hrpc Hclosed.
  rewrite (create_task_started env qc s Hfresh Hclient Hrpc Hclosed). simpl.
  split_and!; try done;
    [by rewrite lookup_insert_eq|intros wid Hwid; by rewrite lookup_insert_ne].
Qed.


(** X11.  A submission that stores its row adds exactly one task to
    what the list operation counts: the total grows by one under no
    filter and under the PENDING filter, and stays the same under the
    COMPLETED and FAILED filters. *)
Theorem list_total_after_create env qc s status_filter lim off :
  db s !! uuid4 env = None →
  total (list_tasks status_filter lim off (create_task uuid_str env qc s).2) =
    (total (list_tasks status_filter lim off s) +
     match status_filter with
     | None | Some PENDING => 1
     | Some _ => 0
     end)%nat.
Proof.
  intros Hfresh. unfold list_tasks. simpl. rewrite !matching_rows_count.
  unfold create_task. simpl. rewrite Hfresh.
  destruct (start_run _ _ _ _ _) as [[[started calls] server'] client']. simpl.
  destruct (decide (status_matches status_filter
                      (Task.new (uuid4 env) (api_utcnow env)))) as [Hyes|Hno].
  - rewrite map_filter_insert_True by done.
    rewrite map_size_insert_None by (apply map_lookup_filter_None_2; by left).
    destruct status_filter as [[]|]; simpl in Hyes; try done; lia.
  - rewrite map_filter_insert_False by done.
    rewrite delete_id by done.
    destruct status_filter as [[]|]; simpl in Hno; try done; lia.
Qed.

(** ** From request to terminal state *)

(** X15.  A payload of white space only, non-empty and within the
    size bound, passes the request validation and is submitted like
    any other; but no attempt on it can parse it, so once the workflow
    has run the task is FAILED with no result and the execution has
    failed after three attempts, whatever parser and simulator the
    attempts meet. *)
Theorem blank_payload_accepted_then_fails
    env qc s fuel (envs : nat → AttemptEnv Circuit) :
  is_blank qc = true →
  1 ≤ Z.of_nat (String.length qc) ≤ 1048576 →
  db s !! uuid4 env = None →
  _client s || connect_ok env = true →
  rpc_ok env = true →
  (∀ run, temporal s !! uuid_str (uuid4 env) = Some run → wf_status run ≠ RUNNING) →
  (3 ≤ fuel)%nat →
  let '(response, calls, s1) := post_tasks uuid_str env qc s in
  let s2 := run_workflow UUID fuel envs (uuid_str (uuid4 env)) s1 in
  response = Response 201 {| task_id := uuid4 env;
                             message := "Task submitted successfully." |} ∧
  db s1 !! uuid4 env = Some (Task.new (uuid4 env) (api_utcnow env)) ∧
  (∃ t', db s2 !! uuid4 env = Some t' ∧
     Task.status t' = FAILED ∧ Task.result t' = None) ∧
  temporal s2 !! uuid_str (uuid4 env) =
    Some {| wf_task_id := uuid_str (uuid4 env);
            wf_qasm3_string := qc;
            wf_attempts := 3;
            wf_status := RUN_FAILED |}.
Proof using UUID_str.
  intros Hblank Hsize Hfresh Hclient Hrpc Hclosed Hfuel.
  unfold post_tasks, TaskCreate.
  destruct (Z.leb_spec 1 (Z.of_nat (String.length qc))); [|lia].
  destruct (Z.leb_spec (Z.of_nat (String.length qc)) 1048576); [|lia]. simpl.
  rewrite (create_task_started env qc s Hfresh Hclient Hrpc Hclosed).
  split; [done|]. simpl. split; [by rewrite lookup_insert_eq|].
  match goal with |- context [run_workflow UUID fuel envs _ ?s1] =>
    destruct (run_workflow_all_raise 2 fuel envs (uuid_str (uuid4 env)) s1
                {| wf_task_id := uuid_str (uuid4 env);
                   wf_qasm3_string := qc;
                   wf_attempts := 0;
                   wf_status := RUNNING |}
                (uuid4 env) (Task.new (uuid4 env) (api_utcnow env)))
      as (Hrun & t' & Ht' & Hst & Hres)
  end; simpl; try done; try lia.
  - by rewrite lookup_insert_eq.
  - by rewrite lookup_insert_eq.
  - intros j _. unfold attempt_raises, parse_qasm3. by rewrite Hblank.
  - split; [|done]. by exists t'.
Qed.
End Pipeline.

(** ** Pages of the list operation *)

(** The order the model fixes is one the database may choose. *)
Lemma list_tasks_may_return_list_tasks status_filter l o s :
  0 ≤ l ≤ INT64_MAX → 0 ≤ o ≤ INT64_MAX →
  list_tasks_may_return status_filter l o s (list_tasks status_filter l o s).
Proof.
  intros Hl Ho. split; [done|]. split; [done|].
  exists (merge_sort created_at_desc
            (filter (status_matches status_filter) (map_to_list (db s)).*2)).
  split; [|done].
  split; [apply merge_sort_Permutation|apply Sorted_merge_sort; apply _].
Qed.

Lemma NoDup_fmap_eq {A B} (f : A → B) (l : list A) x y :
  NoDup (f <$> l) → x ∈ l → y ∈ l → f x = f y → x = y.
Proof.
  induction l as [|a l IH]; csimpl; [by intros _ ?%elem_of_nil|].
  rewrite NoDup_cons, !elem_of_cons. intros [Ha Hl] [->|Hx] [->|Hy] Hf.
  - done.
  - destruct Ha. rewrite Hf. by apply list_elem_of_fmap_2.
  - destruct Ha. rewrite <-Hf. by apply list_elem_of_fmap_2.
  - by apply IH.
Qed.

(** Without ties the database has one order to choose. *)
Lemma newest_first_unique status_filter s sorted sorted' :
  no_ties status_filter s →
  newest_first (filter (status_matches status_filter) (map_to_list (db s)).*2) sorted →
  newest_first (filter (status_matches status_filter) (map_to_list (db s)).*2) sorted' →
  sorted = sorted'.
Proof.
  intros Hties [Hperm Hsorted] [Hperm' Hsorted'].
  apply (Sorted_unique_strong created_at_desc); [|done|done|by rewrite Hperm, Hperm'].
  intros x y Hx Hy Hxy Hyx. rewrite Hperm in Hx. rewrite Hperm' in Hy.
  apply (NoDup_fmap_eq Task.created_at _ x y Hties Hx Hy).
  unfold created_at_desc in *. lia.
Qed.

(** X12.  Consecutive pages fit together on an unchanged store in
    which no two tasks that match the filter share [created_at]:
    whatever the database answers to each call, the page of [l] items
    at offset [o] followed by the page of [l'] items at offset [o + l]
    is the page of [l + l'] items at offset [o]; no task is skipped or
    repeated across the page boundary.  With ties the order among
    equal [created_at] is open on every call, and the pages need not
    fit. *)
Theorem list_tasks_pages_concatenate status_filter l l' o s page1 page2 both :
  no_ties status_filter s →
  list_tasks_may_return status_filter l o s page1 →
  list_tasks_may_return status_filter l' (o + l) s page2 →
  list_tasks_may_return status_filter (l + l') o s both →
  (tasks page1 ++ tasks page2)%list = tasks both.
Proof.
  intros Hties (Hl & Ho & sorted1 & Hsorted1 & ->)
    (Hl' & _ & sorted2 & Hsorted2 & ->) (_ & _ & sorted & Hsorted & ->).
  rewrite (newest_first_unique _ _ _ _ Hties Hsorted1 Hsorted).
  rewrite (newest_first_unique _ _ _ _ Hties Hsorted2 Hsorted).
  simpl. rewrite <-fmap_app. f_equal.
  rewrite !Z2Nat.inj_add by lia.
  rewrite <-drop_drop. apply take_take_drop.
Qed.

(** X13.  An offset at or beyond the number of matching tasks, and
    below 2^63 so that the driver binds it, gives an empty page, while
    the total is still the number of matching tasks: this is what the
    endpoint answers, and what it answers whatever order the database
    chooses. *)
Theorem list_tasks_offset_past_end status_filter lim o s :
  limit_in_bounds lim = true →
  Z.of_nat (size (filter (λ kv, status_matches status_filter kv.2) (db s))) ≤ o →
  o < 2 ^ 63 →
  list_tasks_endpoint status_filter lim (Some o) s =
    Response 200
      {| tasks := [];
         total := size (filter (λ kv, status_matches status_filter kv.2) (db s));
         limit := default 50 lim;
         offset := o |} ∧
  ∀ l body, list_tasks_may_return status_filter l o s body →
    tasks body = [] ∧
    total body = size (filter (λ kv, status_matches status_filter kv.2) (db s)).
Proof.
  intros Hlim Hpast Hfits. rewrite <-matching_rows_count in *. split.
  - rewrite list_tasks_endpoint_validated, Hlim. unfold offset_in_bounds, INT64_MAX.
    cbn [default from_option id andb].
    rewrite bool_decide_eq_true_2 by lia. rewrite bool_decide_eq_true_2 by lia.
    unfold list_tasks. do 2 f_equal.
    rewrite drop_ge; [by rewrite take_nil|].
    rewrite merge_sort_Permutation. lia.
  - intros l body (_ & _ & sorted & [Hperm _] & ->). simpl. split; [|done].
    rewrite drop_ge; [by rewrite take_nil|].
    rewrite Hperm. lia.
Qed.

(** X14.  A first page that is large enough is complete: when the
    limit is at least the number of matching tasks, the page at offset
    0 has as many items as the total, and every stored task that
    matches the filter is among them. *)
Theorem list_tasks_first_page_complete status_filter l s :
  Z.of_nat (total (list_tasks status_filter l 0 s)) ≤ l →
  length (tasks (list_tasks status_filter l 0 s))
    = total (list_tasks status_filter l 0 s) ∧
  ∀ u t, db s !! u = Some t → status_matches status_filter t →
    to_item t ∈ tasks (list_tasks status_filter l 0 s).
Proof.
  unfold list_tasks. simpl.
  set (query := filter (status_matches status_filter) (map_to_list (db s)).*2).
  intros Hfits. rewrite drop_0.
  rewrite take_ge by (rewrite merge_sort_Permutation; lia).
  split; [by rewrite length_fmap, merge_sort_Permutation|].
  intros u t Hrow Hmatch. apply list_elem_of_fmap_2.
  rewrite merge_sort_Permutation. unfold query.
  apply list_elem_of_filter. split; [done|].
  apply list_elem_of_fmap. exists (u, t). split; [done|].
  by apply elem_of_map_to_list.
Qed.

(** ** The GUID column type *)

(** X16.  Binding and reading back agree.  A value that denotes the
    UUID [u], a UUID object or a string that parses to it, is bound
    under every dialect to a string that parses to [u], and reading
    that string back gives the UUID object of [u]; outside the
    postgresql dialect, and for UUID objects everywhere, the string
    bound is the canonical print of [u]. *)
Theorem guid_bind_then_result
    (uuid_str : N → string) (UUID : string → option N) value u dialect dialect' :
  (∀ v, UUID (uuid_str v) = Some v) →
  value = PyUUID u ∨ (∃ s, value = PyStr s ∧ UUID s = Some u) →
  ∃ stored,
    process_bind_param uuid_str UUID value dialect = inr (PyStr stored) ∧
    UUID stored = Some u ∧
    process_result_value UUID (PyStr stored) dialect' = inr (PyUUID u) ∧
    (value = PyUUID u ∨ dialect ≠ "postgresql" → stored = uuid_str u).
Proof.
  intros UUID_str [-> | (s & -> & Hs)]; simpl.
  - exists (uuid_str u). by rewrite UUID_str.
  - case_decide as Hd.
    + exists s. rewrite Hs. split_and!; try done. intros [?|?]; done.
    + rewrite Hs. exists (uuid_str u). by rewrite UUID_str.
Qed.

(** ** The client's life cycle and the health check *)

(** X17.  Once start-up has connected the client, the health check
    never contacts the server again: it reports the Temporal side as
    ok, and answers 200 exactly when the database is healthy, whether
    or not the server can be reached now.  After shut-down the client
    is gone, and the health check reports the Temporal side as its
    new connection attempt turns out. *)
Theorem health_check_trusts_cached_client db_healthy connect_now cached :
  let up := lifespan_startup true cached in
  (health_check db_healthy connect_now up).1.1 = (if db_healthy then 200 else 503) ∧
  health_temporal (health_check db_healthy connect_now up).1.2 = "ok" ∧
  (health_check db_healthy connect_now up).2 = true ∧
  health_temporal (health_check db_healthy connect_now (lifespan_shutdown up)).1.2
    = (if connect_now then "ok" else "error") ∧
  (health_check db_healthy connect_now (lifespan_shutdown up)).1.1
    = (if db_healthy && connect_now then 200 else 503).
Proof.
  unfold lifespan_startup, lifespan_shutdown, close_temporal_client,
    health_check, get_temporal_client.
  destruct cached, db_healthy, connect_now; done.
Qed.

(** ** The text handed to the parser *)

Local Open Scope list_scope.

Lemma drop_while_all p l : forallb p l = true → ∀ k, drop_while p (l ++ k) = drop_while p k.
Proof.
  induction l as [|c l IH]; simpl; [done|].
  intros Hall k. apply andb_true_iff in Hall as [-> Hall]. by apply IH.
Qed.

Lemma drop_while_stop p c l : p c = false → drop_while p (c :: l) = c :: l.
Proof. simpl. by intros ->. Qed.

Lemma drop_while_suffix p l : drop_while p l `suffix_of` l.
Proof.
  induction l as [|c l IH]; simpl; [done|].
  destruct (p c); [by apply suffix_cons_r|done].
Qed.

Lemma strip_prefix_app fold kw l :
  strip_prefix fold (fold <$> kw) (kw ++ l) = Some l.
Proof. induction kw as [|c kw IH]; simpl; [by destruct l|]. by rewrite decide_True. Qed.

Lemma strip_prefix_split fold prefix l rest :
  strip_prefix fold prefix l = Some rest →
  ∃ m, l = m ++ rest ∧ length m = length prefix.
Proof.
  revert l. induction prefix as [|p prefix IH]; intros l; simpl.
  - intros Hl. exists []. destruct l; by injection Hl as <-.
  - destruct l as [|c l]; [done|]. case_decide; [|done].
    intros (m & -> & Hm)%IH. exists (c :: m). simpl. by rewrite Hm.
Qed.

Lemma strip_prefix_fold fold prefix l :
  is_Some (strip_prefix id prefix (fold <$> l)) ↔ is_Some (strip_prefix fold prefix l).
Proof.
  revert l. induction prefix as [|p prefix IH]; intros l; simpl.
  - by destruct l.
  - destruct l as [|c l]; simpl; [done|]. unfold id at 1.
    case_decide; [apply IH|done].
Qed.

(** What a match of the include pattern leaves is a proper suffix. *)
Lemma match_include_suffix l rest :
  match_include l = Some rest → ∃ m, m ≠ [] ∧ l = m ++ rest.
Proof.
  unfold match_include. intros Hm.
  destruct (strip_prefix _ _ l) as [[|c r0]|] eqn:Hkw; try done.
  apply strip_prefix_split in Hkw as (m0 & -> & Hlen).
  destruct (isspace c); [|done].
  destruct (drop_while_suffix isspace r0) as [m1 Hr0].
  destruct (drop_while isspace r0) as [|q [|c1 r1]]; try done.
  destruct (is_quote q && negb (is_quote c1)); [|done].
  destruct (drop_while_suffix (λ x, negb (is_quote x)) r1) as [m2 Hr1].
  destruct (drop_while _ r1) as [|q2 r2]; [done|].
  destruct (drop_while_suffix isspace r2) as [m3 Hr2].
  destruct (drop_while isspace r2) as [|semi r3]; [done|].
  case_decide; [|done]. injection Hm as <-.
  exists (m0 ++ c :: m1 ++ q :: c1 :: m2 ++ q2 :: m3 ++ [semi]). split.
  - destruct m0; simpl in Hlen; done.
  - subst r0 r1 r2. by simplify_list_eq.
Qed.

Lemma re_sub_include_skip n l :
  re_sub_include n l = re_sub_include 0 (drop n l).
Proof.
  revert n. induction l as [|c l IH]; intros [|n]; try done.
  - simpl. apply IH.
Qed.

(** The two equations of the substitution. *)
Lemma re_sub_include_match l rest :
  match_include l = Some rest → re_sub_include 0 l = re_sub_include 0 rest.
Proof.
  intros Hm. destruct (match_include_suffix l rest Hm) as (m & Hne & ->).
  destruct m as [|c m]; [done|]. simpl app in *. simpl re_sub_include. rewrite Hm.
  rewrite re_sub_include_skip. f_equal.
  rewrite length_app. replace (length m + length rest - length rest)%nat
    with (length m) by lia.
  by rewrite drop_app_length.
Qed.

Lemma re_sub_include_no_match c l :
  match_include (c :: l) = None →
  re_sub_include 0 (c :: l) = c :: re_sub_include 0 l.
Proof. intros Hm. simpl re_sub_include. by rewrite Hm. Qed.

(** A well-formed include statement matches as a whole. *)
Lemma match_include_statement kw ws q f q' ws' rest :
  str_lower kw = list_ascii_of_string "include" →
  ws ≠ [] → forallb isspace ws = true →
  is_quote q = true →
  f ≠ [] → forallb (λ x, negb (is_quote x)) f = true →
  is_quote q' = true →
  forallb isspace ws' = true →
  match_include (kw ++ ws ++ q :: f ++ q' :: ws' ++ ";"%char :: rest) = Some rest.
Proof.
  intros Hkw Hws Hspace Hq Hf Hname Hq' Hspace'.
  unfold match_include. rewrite <-Hkw. unfold str_lower.
  rewrite strip_prefix_app.
  destruct ws as [|c ws]; [done|]. simpl in Hspace.
  apply andb_true_iff in Hspace as [Hc Hspace]. simpl app. cbv beta iota.
  rewrite Hc, (drop_while_all _ _ Hspace).
  destruct f as [|c1 f]; [done|]. simpl in Hname.
  apply andb_true_iff in Hname as [Hc1 Hname].
  rewrite drop_while_stop by (destruct (isspace q) eqn:Hsq; [|done];
    revert Hq Hsq; unfold is_quote, isspace;
    repeat match goal with |- context [(?a =? ?b)%nat] =>
      destruct (Nat.eqb_spec a b) end; simpl; try done; intros _;
    repeat match goal with |- context [(?a <=? ?b)%nat] =>
      destruct (Nat.leb_spec a b) end; simpl; try done; lia).
  simpl app. cbv beta iota. rewrite Hq, Hc1. cbn [andb negb].
  rewrite (drop_while_all _ _ Hname).
  rewrite drop_while_stop by (by rewrite Hq').
  rewrite (drop_while_all _ _ Hspace').
  rewrite drop_while_stop by done.
  by rewrite decide_True.
Qed.

Lemma startswith_app prefix a b :
  startswith prefix a = true → startswith prefix (a ++ b) = true.
Proof.
  unfold startswith. rewrite !bool_decide_eq_true.
  revert a. induction prefix as [|p prefix IH]; intros a; simpl; [done|].
  destruct a as [|c a]; simpl; [by intros []|].
  case_decide; [apply IH|by intros []].
Qed.

Lemma str_in_app_l needle a b :
  str_in needle a = true → str_in needle (a ++ b) = true.
Proof.
  induction a as [|c a IH]; simpl.
  - rewrite orb_false_r. intros Hp. apply (startswith_app _ [] b) in Hp.
    destruct b; simpl in *; by rewrite Hp.
  - intros [Hp|Hin]%orb_true_iff; apply orb_true_iff.
    + left. by apply (startswith_app _ (c :: a)).
    + right. by apply IH.
Qed.

Lemma str_in_app_r needle a b :
  str_in needle b = true → str_in needle (a ++ b) = true.
Proof.
  intros Hb. induction a as [|c a IH]; simpl; [done|].
  apply orb_true_iff. by right.
Qed.

Lemma split_first_line_keeps_prefix prefix l first rest :
  is_Some (strip_prefix id prefix l) →
  newline ∉ prefix →
  split_first_line l = (first, rest) →
  is_Some (strip_prefix id prefix first).
Proof.
  revert l first. induction prefix as [|p prefix IH]; intros l first; simpl.
  { by destruct first. }
  destruct l as [|c l]; [by intros []|]. unfold id at 1.
  case_decide as Hc; [|by intros []]. subst p.
  intros Hrest Hnl. simpl.
  case_decide as Hnew; [subst c; by destruct Hnl; left|].
  destruct (split_first_line l) as [first' rest'] eqn:Hsplit.
  intros [= <- <-]. simpl. unfold id at 1. rewrite decide_True by done.
  apply (IH l); [done| |done]. intros Hin. apply Hnl. by right.
Qed.

Lemma split_first_line_one_line l :
  newline ∉ l → split_first_line l = (l, None).
Proof.
  induction l as [|c l IH]; [done|]. intros Hnl. simpl.
  case_decide as Hc; [subst c; by destruct Hnl; left|].
  rewrite IH; [done|]. intros Hin. apply Hnl. by right.
Qed.

Lemma isspace_not_i c : isspace c = true → lower_ascii c ≠ "i"%char.
Proof. destruct c as [[] [] [] [] [] [] [] []]; vm_compute; congruence. Qed.

Lemma match_include_space c l : isspace c = true → match_include (c :: l) = None.
Proof.
  intros Hc. unfold match_include. simpl.
  by rewrite decide_False by by apply isspace_not_i.
Qed.

Lemma re_sub_include_statement stmt rest :
  include_statement stmt →
  re_sub_include 0 (stmt ++ rest) = re_sub_include 0 rest.
Proof.
  intros (kw & ws & q & name & q' & ws' & -> & Hkw & Hws & Hspace & Hq & Hname
          & Hquotes & Hq' & Hspace').
  apply re_sub_include_match.
  rewrite <-(match_include_statement kw ws q name q' ws' rest) by done.
  f_equal. by simplify_list_eq.
Qed.

Lemma includes_only_blank l :
  includes_only l → forallb isspace (re_sub_include 0 l) = true.
Proof.
  induction 1 as [|c l Hc _ IH|stmt l Hstmt _ IH]; [done| |].
  - rewrite re_sub_include_no_match by by apply match_include_space.
    simpl. by rewrite Hc, IH.
  - by rewrite re_sub_include_statement.
Qed.

Lemma str_strip_blank l : forallb isspace l = true → str_strip l = [].
Proof.
  intros Hl. unfold str_strip.
  rewrite <-(app_nil_r l), (drop_while_all _ _ Hl). done.
Qed.

(** X18.  An include statement is matched and removed as a whole, in
    any letter case of the word, with either quote character on either
    side of the file name, and whatever follows it: the pattern
    matches the statement and nothing more, and substituting in the
    statement followed by a text gives what substituting in the text
    alone gives. *)
Theorem include_statement_is_removed stmt rest :
  include_statement stmt →
  match_include (stmt ++ rest) = Some rest ∧
  re_sub_include 0 (stmt ++ rest) = re_sub_include 0 rest.
Proof.
  intros Hstmt. split; [|by apply re_sub_include_statement].
  destruct Hstmt as (kw & ws & q & name & q' & ws' & -> & Hkw & Hws & Hspace & Hq
                     & Hname & Hquotes & Hq' & Hspace').
  rewrite <-(match_include_statement kw ws q name q' ws' rest) by done.
  f_equal. by simplify_list_eq.
Qed.

(** X19.  A text of ASCII characters in which the word include does
    not occur in any letter case goes through the substitution
    unchanged. *)
Theorem text_without_include_is_kept l :
  is_ascii l = true →
  str_in (list_ascii_of_string "include") (str_lower l) = false →
  re_sub_include 0 l = l.
Proof.
  intros _. induction l as [|c l IH]; [done|].
  simpl str_in. intros [Hhere Hlater]%orb_false_iff.
  rewrite re_sub_include_no_match; [by rewrite IH|].
  unfold match_include.
  destruct (strip_prefix lower_ascii _ (c :: l)) eqn:Hkw; [|done].
  unfold startswith in Hhere. apply bool_decide_eq_false in Hhere.
  destruct Hhere. change (lower_ascii c :: str_lower l) with (lower_ascii <$> c :: l).
  apply (strip_prefix_fold lower_ascii (list_ascii_of_string "include")).
  by rewrite Hkw.
Qed.

(** X20.  Whatever the payload, the text handed to the parser mentions
    [gate h]: either the cleaned payload did, or the standard gates
    were added to it. *)
Theorem parser_text_mentions_gate_h qasm3_string text :
  clean_qasm3 qasm3_string = Some text →
  str_in (list_ascii_of_string "gate h") (str_lower (list_ascii_of_string text)) = true.
Proof.
  unfold clean_qasm3.
  destruct (str_strip _) as [|c cleaned] eqn:Hclean; [done|].
  intros [= <-]. rewrite list_ascii_of_string_of_list_ascii.
  unfold add_standard_gates.
  destruct (str_in _ (str_lower (c :: cleaned))) eqn:Hin; [done|].
  assert (str_in (list_ascii_of_string "gate h") (str_lower standard_gates) = true)
    as Hgates by (vm_compute; reflexivity).
  destruct (startswith _ (c :: cleaned)).
  - destruct (split_first_line (c :: cleaned)) as [first rest].
    unfold str_lower. rewrite !fmap_app.
    apply str_in_app_r, str_in_app_r, str_in_app_l, Hgates.
  - unfold str_lower. rewrite fmap_app. apply str_in_app_l, Hgates.
Qed.

(** X21.  Where the standard gates go is decided by the first
    characters of the cleaned payload.  When it starts with [OPENQASM]
    the text handed to the parser starts with [OPENQASM] too, the
    gates coming after its first line or not at all.  When it does
    not, the text does not start with [OPENQASM] either, and unless
    the payload mentions [gate h] the gates are put in front of all of
    it: in front of a declaration that comes later too, a comment line
    before the declaration being enough. *)
Theorem standard_gates_placed_by_first_characters qasm3_string text :
  clean_qasm3 qasm3_string = Some text →
  let cleaned := str_strip (re_sub_include 0 (list_ascii_of_string qasm3_string)) in
  startswith (list_ascii_of_string "OPENQASM") (list_ascii_of_string text)
  = startswith (list_ascii_of_string "OPENQASM") cleaned ∧
  (startswith (list_ascii_of_string "OPENQASM") cleaned = false →
   str_in (list_ascii_of_string "gate h") (str_lower cleaned) = false →
   list_ascii_of_string text = standard_gates ++ cleaned).
Proof.
  unfold clean_qasm3. cbv zeta.
  destruct (str_strip _) as [|c cleaned] eqn:Hclean; [done|].
  intros [= <-]. rewrite list_ascii_of_string_of_list_ascii.
  unfold add_standard_gates. split.
  - destruct (str_in _ (str_lower (c :: cleaned))); [done|].
    destruct (startswith _ (c :: cleaned)) eqn:Hhead; [|done].
    destruct (split_first_line (c :: cleaned)) as [first rest] eqn:Hsplit.
    apply startswith_app. unfold startswith in *.
    apply bool_decide_eq_true in Hhead. apply bool_decide_eq_true.
    apply (split_first_line_keeps_prefix _ (c :: cleaned) first rest); [done| |done].
    apply (bool_decide_unpack (newline ∉ list_ascii_of_string "OPENQASM")).
    by vm_compute.
  - by intros -> ->.
Qed.

(** X22.  A payload made of include statements and white space only is
    rejected by [parse_qasm3] with ValueError whatever the parser
    would accept: nothing is left to parse, and the parser is not
    asked. *)
Theorem include_only_payload_is_rejected {Circuit}
    now (loads : string → option Circuit) simulator qasm3_string :
  includes_only (list_ascii_of_string qasm3_string) →
  parse_qasm3 (qiskit_env now loads simulator) qasm3_string = inl ValueError.
Proof.
  intros Honly. unfold parse_qasm3. destruct (is_blank qasm3_string); [done|].
  simpl. unfold clean_qasm3.
  by rewrite (str_strip_blank _ (includes_only_blank _ Honly)).
Qed.

(** X23.  A program on one line that starts with [OPENQASM] and does
    not mention [gate h] gets the standard gates after its text, not
    after its declaration: the parser reads the whole program first
    and the gate definitions last. *)
Theorem one_line_program_gets_gates_last cleaned :
  newline ∉ cleaned →
  startswith (list_ascii_of_string "OPENQASM") cleaned = true →
  str_in (list_ascii_of_string "gate h") (str_lower cleaned) = false →
  add_standard_gates cleaned = cleaned ++ [newline] ++ standard_gates.
Proof.
  intros Hline Hhead Hgate. unfold add_standard_gates.
  rewrite Hgate, Hhead, (split_first_line_one_line _ Hline).
  cbn [default from_option id]. by rewrite app_nil_r.
Qed.

(** * The further properties on the concrete platform *)

Lemma attempt_returns_good_env now :
  attempt_returns (good_env now) "INVALID QASM3" bell_counts.
Proof. exists "INVALID QASM3". split; reflexivity. Defined.

(** X1 on the first attempt of the submitted task. *)
Lemma activity_returns_and_completes_submitted :
  ∃ t',
    execute_quantum_circuit_activity hex_UUID (good_env 201)
      "a" "INVALID QASM3" (db submitted)
      = (inr bell_counts, <[10%N := t']> (db submitted)) ∧
    Task.status t' = COMPLETED ∧
    Task.result t' = Some bell_counts ∧
    Task.id t' = 10%N ∧
    Task.created_at t' = 100 ∧
    (t' = Task.mk 10 PENDING None 100 100 ∨ Task.updated_at t' = 201).
Proof.
  apply (activity_returns_and_completes hex_UUID (good_env 201)
           "a" "INVALID QASM3" 10 (Task.mk 10 PENDING None 100 100) (db submitted)
           bell_counts).
  - vm_compute. reflexivity.
  - vm_compute. reflexivity.
  - apply attempt_returns_good_env.
Defined.

(** X2 on an attempt whose simulator fails, made after an attempt that
    committed without reporting: the row keeps the counts it had. *)
Lemma compute_failure_fails_task_and_is_retried_after_commit :
  let s' := workflow_attempt hex_UUID (bad_run_env 300) "a" completed_unreported in
  RuntimeError = RuntimeError ∧
  execute_quantum_circuit_activity hex_UUID (bad_run_env 300)
    "a" "INVALID QASM3" (db completed_unreported) = (inl RuntimeError, db s') ∧
  (∃ t', db s' !! 10%N = Some t' ∧
     Task.status t' = FAILED ∧ Task.result t' = Some bell_counts) ∧
  (∀ v, v ≠ 10%N → db s' !! v = db completed_unreported !! v) ∧
  ∃ run', temporal s' !! "a" = Some run' ∧
    wf_attempts run' = 2%nat ∧ wf_status run' = RUNNING.
Proof.
  apply (compute_failure_fails_task_and_is_retried hex_UUID
           (bad_run_env 300) "a" completed_unreported
           {| wf_task_id := "a"; wf_qasm3_string := "INVALID QASM3";
              wf_attempts := 1; wf_status := RUNNING |}
           10 (Task.mk 10 COMPLETED (Some bell_counts) 100 201)
           "INVALID QASM3" RuntimeError);
    vm_compute; reflexivity.
Defined.

(** Scenario: the simulator module is missing.  The activity raises
    the import error itself, not RuntimeError; the task is FAILED and
    the execution is left open for the next attempt. *)
Example missing_simulator_module_fails_task :
  let s' := workflow_attempt hex_UUID (no_aer_env 201) "a" submitted in
  execute_quantum_circuit_activity hex_UUID (no_aer_env 201)
    "a" "INVALID QASM3" (db submitted) = (inl ModuleNotFoundError, db s') ∧
  db s' !! 10%N = Some (Task.mk 10 FAILED None 100 201) ∧
  temporal s' !! "a" = Some {| wf_task_id := "a";
                               wf_qasm3_string := "INVALID QASM3";
                               wf_attempts := 1;
                               wf_status := RUNNING |}.
Proof. vm_compute. done. Qed.



(** X5 on the submitted task when every attempt fails. *)
Lemma run_workflow_exhausts_retries_submitted :
  let s' := run_workflow hex_UUID 3 (every_attempt bad_run_env) "a" submitted in
  temporal s' !! "a" = Some {| wf_task_id := "a";
                               wf_qasm3_string := "INVALID QASM3";
                               wf_attempts := 3;
                               wf_status := RUN_FAILED |} ∧
  ∃ t', db s' !! 10%N = Some t' ∧
    Task.status t' = FAILED ∧ Task.result t' = None.
Proof.
  apply (run_workflow_exhausts_retries hex_UUID 3 (every_attempt bad_run_env)
           "a" submitted
           {| wf_task_id := "a"; wf_qasm3_string := "INVALID QASM3";
              wf_attempts := 0; wf_status := RUNNING |}
           10 (Task.mk 10 PENDING None 100 100)).
  - vm_compute. reflexivity.
  - reflexivity.
  - simpl. lia.
  - vm_compute. reflexivity.
  - vm_compute. reflexivity.
  - intros j _. unfold attempt_raises. simpl. by exists RuntimeError.
  - simpl. lia.
Defined.

(** X6 on the submitted task when the simulator fails twice. *)
Lemma run_workflow_converges_submitted :
  let s' := run_workflow hex_UUID 3 fails_twice "a" submitted in
  temporal s' !! "a" = Some {| wf_task_id := "a";
                               wf_qasm3_string := "INVALID QASM3";
                               wf_attempts := 3;
                               wf_status := RUN_COMPLETED |} ∧
  ∃ t', db s' !! 10%N = Some t' ∧
    Task.status t' = COMPLETED ∧ Task.result t' = Some bell_counts.
Proof.
  apply (run_workflow_converges hex_UUID 3 fails_twice "a" submitted
           {| wf_task_id := "a"; wf_qasm3_string := "INVALID QASM3";
              wf_attempts := 0; wf_status := RUNNING |}
           10 (Task.mk 10 PENDING None 100 100) 3 bell_counts).
  - vm_compute. reflexivity.
  - reflexivity.
  - vm_compute. reflexivity.
  - vm_compute. reflexivity.
  - lia.
  - simpl. lia.
  - intros j Hj. simpl in Hj.
    assert (j = 1 ∨ j = 2)%nat as [-> | ->] by lia;
      unfold attempt_raises; simpl; by exists RuntimeError.
  - apply attempt_returns_good_env.
  - lia.
Defined.

(** X7 on a first submission. *)
Lemma get_task_after_create_init :
  get_task 10 (create_task hex_str (api_env 10 100 true true) "OPENQASM 3.0;" init).2
  = Response 200 {| tsr_status := PENDING;
                    tsr_result := None;
                    tsr_message := Some "Task is still in progress." |}.
Proof.
  apply (get_task_after_create hex_str (api_env 10 100 true true) "OPENQASM 3.0;" init).
  reflexivity.
Defined.

(** X8 on a second submission: the first task is untouched. *)
Lemma create_task_keeps_rows_submitted :
  db (create_task hex_str (api_env 11 150 true true) "OPENQASM 3.0;" submitted).2
    !! 10%N = Some (Task.mk 10 PENDING None 100 100).
Proof.
  apply (create_task_keeps_rows hex_str (api_env 11 150 true true) "OPENQASM 3.0;"
           submitted 10).
  vm_compute. reflexivity.
Defined.

(** X9 on a first submission with the backend up. *)
Lemma create_task_starts_keyed_run_init :
  let '(response, calls, s') :=
    create_task hex_str (api_env 10 100 true true) "OPENQASM 3.0;" init in
  calls = [DbInsert 10; GetTemporalClient; StartWorkflow "a"] ∧
  temporal s' !! "a" = Some {| wf_task_id := "a";
                               wf_qasm3_string := "OPENQASM 3.0;";
                               wf_attempts := 0;
                               wf_status := RUNNING |} ∧
  (∀ wid, wid ≠ "a" → temporal s' !! wid = temporal init !! wid) ∧
  _client s' = true.
Proof.
  apply (create_task_starts_keyed_run hex_str (api_env 10 100 true true)
           "OPENQASM 3.0;" init); try reflexivity.
  intros run. simpl. by rewrite lookup_empty.
Defined.


(** X11 on an eleventh submission. *)
Lemma list_total_after_create_ten_tasks :
  total (list_tasks (Some PENDING) 5 0
           (create_task hex_str (api_env 11 11 false false) "OPENQASM 3.0;" ten_tasks).2)
  = (total (list_tasks (Some PENDING) 5 0 ten_tasks) + 1)%nat.
Proof.
  apply (list_total_after_create hex_str (api_env 11 11 false false) "OPENQASM 3.0;"
           ten_tasks (Some PENDING) 5 0).
  vm_compute. reflexivity.
Defined.

Lemma no_ties_ten_tasks : no_ties None ten_tasks.
Proof.
  unfold no_ties.
  apply (bool_decide_unpack
           (NoDup (Task.created_at <$>
                     filter (status_matches None) (map_to_list (db ten_tasks)).*2))).
  vm_compute. reflexivity.
Defined.

(** X12 on two pages of the ten tasks. *)
Lemma list_tasks_pages_concatenate_ten_tasks :
  (tasks (list_tasks None 3 2 ten_tasks)
     ++ tasks (list_tasks None 4 (2 + 3) ten_tasks))%list
  = tasks (list_tasks None (3 + 4) 2 ten_tasks).
Proof.
  apply (list_tasks_pages_concatenate None 3 4 2 ten_tasks).
  - exact no_ties_ten_tasks.
  - apply list_tasks_may_return_list_tasks; vm_compute; split; discriminate.
  - apply list_tasks_may_return_list_tasks; vm_compute; split; discriminate.
  - apply list_tasks_may_return_list_tasks; vm_compute; split; discriminate.
Defined.

(** X13 on the ten tasks at offset 10. *)
Lemma list_tasks_offset_past_end_ten_tasks :
  list_tasks_endpoint None (Some 5) (Some 10) ten_tasks =
    Response 200
      {| tasks := [];
         total := size (filter (λ kv, status_matches None kv.2) (db ten_tasks));
         limit := 5;
         offset := 10 |} ∧
  ∀ l body, list_tasks_may_return None l 10 ten_tasks body →
    tasks body = [] ∧
    total body = size (filter (λ kv, status_matches None kv.2) (db ten_tasks)).
Proof.
  apply (list_tasks_offset_past_end None (Some 5) 10 ten_tasks).
  - reflexivity.
  - vm_compute. discriminate.
  - reflexivity.
Defined.

(** With a tie the pages of two calls need not fit: of two tasks
    created at the same time the database may put either first, so the
    first page of one and the second page of one may show the same
    task, the other task being on neither. *)
Example tied_pages_may_repeat_a_task :
  let t1 := Task.new 1 5 in
  list_tasks_may_return None 1 0 tied_tasks
    {| tasks := [to_item t1]; total := 2; limit := 1; offset := 0 |} ∧
  list_tasks_may_return None 1 1 tied_tasks
    {| tasks := [to_item t1]; total := 2; limit := 1; offset := 1 |}.
Proof.
  split.
  - split; [vm_compute; split; discriminate|].
    split; [vm_compute; split; discriminate|].
    exists [Task.new 1 5; Task.new 2 5]. split; [|vm_compute; reflexivity].
    split.
    + vm_compute. first [reflexivity|apply perm_swap].
    + repeat constructor; unfold created_at_desc; simpl; lia.
  - split; [vm_compute; split; discriminate|].
    split; [vm_compute; split; discriminate|].
    exists [Task.new 2 5; Task.new 1 5]. split; [|vm_compute; reflexivity].
    split.
    + vm_compute. first [reflexivity|apply perm_swap].
    + repeat constructor; unfold created_at_desc; simpl; lia.
Qed.

(** X14 on the ten tasks under the default limit. *)
Lemma list_tasks_first_page_complete_ten_tasks :
  length (tasks (list_tasks None 50 0 ten_tasks))
    = total (list_tasks None 50 0 ten_tasks) ∧
  ∀ u t, db ten_tasks !! u = Some t → status_matches None t →
    to_item t ∈ tasks (list_tasks None 50 0 ten_tasks).
Proof.
  apply (list_tasks_first_page_complete None 50 ten_tasks).
  vm_compute. discriminate.
Defined.

(** X15 on a payload of one space, three attempts with any parser. *)
Lemma blank_payload_accepted_then_fails_init :
  let '(response, calls, s1) :=
    post_tasks hex_str (api_env 10 100 true true) " " init in
  let s2 := run_workflow hex_UUID 3 (every_attempt good_env) "a" s1 in
  response = Response 201 {| task_id := 10;
                             message := "Task submitted successfully." |} ∧
  db s1 !! 10%N = Some (Task.new 10 100) ∧
  (∃ t', db s2 !! 10%N = Some t' ∧
     Task.status t' = FAILED ∧ Task.result t' = None) ∧
  temporal s2 !! "a" = Some {| wf_task_id := "a";
                               wf_qasm3_string := " ";
                               wf_attempts := 3;
                               wf_status := RUN_FAILED |}.
Proof.
  apply (blank_payload_accepted_then_fails hex_str hex_UUID hex_UUID_str
           (api_env 10 100 true true) " " init 3 (every_attempt good_env));
    try reflexivity; try (simpl; lia).
  intros run. simpl. by rewrite lookup_empty.
Defined.

(** X16 on a string that is not the canonical print, under a dialect
    other than postgresql: what is stored is the canonical print. *)
Lemma guid_bind_then_result_not_canonical :
  ∃ stored,
    process_bind_param hex_str hex_UUID (PyStr "0a") "sqlite" = inr (PyStr stored) ∧
    hex_UUID stored = Some 10%N ∧
    process_result_value hex_UUID (PyStr stored) "sqlite" = inr (PyUUID 10) ∧
    (PyStr "0a" = PyUUID 10 ∨ "sqlite" ≠ "postgresql" → stored = hex_str 10).
Proof.
  apply (guid_bind_then_result hex_str hex_UUID (PyStr "0a") 10 "sqlite" "sqlite"
           hex_UUID_str).
  right. exists "0a". split; reflexivity.
Defined.

Lemma include_statement_upper_case :
  include_statement (list_ascii_of_string "INCLUDE 'x.inc' ;").
Proof.
  exists (list_ascii_of_string "INCLUDE"), (list_ascii_of_string " "), "'"%char,
    (list_ascii_of_string "x.inc"), "'"%char, (list_ascii_of_string " ").
  split_and!; done.
Defined.

(** X18 on an upper-case include statement in front of a program. *)
Lemma include_statement_is_removed_upper_case :
  match_include (list_ascii_of_string "INCLUDE 'x.inc' ;"
                 ++ list_ascii_of_string "qubit q;")
  = Some (list_ascii_of_string "qubit q;") ∧
  re_sub_include 0 (list_ascii_of_string "INCLUDE 'x.inc' ;"
                    ++ list_ascii_of_string "qubit q;")
  = re_sub_include 0 (list_ascii_of_string "qubit q;").
Proof.
  apply (include_statement_is_removed (list_ascii_of_string "INCLUDE 'x.inc' ;")
           (list_ascii_of_string "qubit q;")).
  apply include_statement_upper_case.
Defined.

(** X19 on a program without include statements. *)
Lemma text_without_include_is_kept_qubit :
  re_sub_include 0 (list_ascii_of_string "qubit q; h q;")
  = list_ascii_of_string "qubit q; h q;".
Proof.
  apply (text_without_include_is_kept (list_ascii_of_string "qubit q; h q;"));
    reflexivity.
Defined.

(** X20 on the circuit of the test suite. *)
Lemma parser_text_mentions_gate_h_sample :
  match clean_qasm3 sample_qasm3 with
  | Some text =>
    str_in (list_ascii_of_string "gate h") (str_lower (list_ascii_of_string text)) = true
  | None => False
  end.
Proof.
  destruct (clean_qasm3 sample_qasm3) as [text|] eqn:Hclean.
  - exact (parser_text_mentions_gate_h sample_qasm3 text Hclean).
  - vm_compute in Hclean. discriminate.
Defined.

(** X21 on a program whose declaration comes after a comment line:
    the gates are put before the comment and the declaration. *)
Lemma standard_gates_placed_by_first_characters_comment :
  match clean_qasm3 commented_qasm3 with
  | Some text =>
    startswith (list_ascii_of_string "OPENQASM") (list_ascii_of_string text) = false ∧
    list_ascii_of_string text = standard_gates ++ list_ascii_of_string commented_qasm3
  | None => False
  end.
Proof.
  destruct (clean_qasm3 commented_qasm3) as [text|] eqn:Hclean.
  - destruct (standard_gates_placed_by_first_characters commented_qasm3 text Hclean)
      as [Hhead Hfront].
    split.
    + rewrite Hhead. vm_compute. reflexivity.
    + rewrite Hfront by (vm_compute; reflexivity). vm_compute. reflexivity.
  - vm_compute in Hclean. discriminate.
Defined.

(** X22 on a payload that is one include statement, with a parser
    that accepts every text. *)
Lemma include_only_payload_is_rejected_one_statement :
  parse_qasm3 (qiskit_env 201 (λ text, Some text) (λ _ _, None)) "INCLUDE 'x.inc' ;"
  = inl ValueError.
Proof.
  apply (include_only_payload_is_rejected 201 (λ text : string, Some text)
           (λ _ _, None) "INCLUDE 'x.inc' ;").
  change (includes_only (list_ascii_of_string "INCLUDE 'x.inc' ;" ++ [])).
  apply includes_only_statement; [apply include_statement_upper_case|constructor].
Defined.

(** X23 on a program written on one line. *)
Lemma one_line_program_gets_gates_last_example :
  add_standard_gates (list_ascii_of_string "OPENQASM 3.0; qubit q; x q;")
  = list_ascii_of_string "OPENQASM 3.0; qubit q; x q;" ++ [newline] ++ standard_gates.
Proof.
  apply (one_line_program_gets_gates_last
           (list_ascii_of_string "OPENQASM 3.0; qubit q; x q;")).
  - apply (bool_decide_unpack
             (newline ∉ list_ascii_of_string "OPENQASM 3.0; qubit q; x q;")).
    by vm_compute.
  - reflexivity.
  - reflexivity.
Defined.

(** The circuit of the test suite, as the parser receives it: its
    declaration, the standard gates, then its statements. *)
Example clean_sample_qasm3 :
  (list_ascii_of_string <$> clean_qasm3 sample_qasm3)
  = Some (list_ascii_of_string "OPENQASM 3.0;" ++ [newline] ++ standard_gates
          ++ drop 14 (str_strip (list_ascii_of_string sample_qasm3))).
Proof. vm_compute. reflexivity. Qed.
